(** * Lease-based leader election of node-red-contrib-cluster-leader

    A shallow embedding of [cluster-leader.js]: the node's closure state, its
    asynchronous handlers ([checkLeadership], [refreshLeadership], the
    interval callback of [startStatusMonitoring], the ['input'] and ['close']
    handlers, [initRedis]) written in a small resumption monad whose
    suspension points are the [await]s on store commands, the store the
    commands run against, and a labelled transition system that interleaves
    the handlers of several processes. *)

From stdpp Require Import gmap strings list fin_maps.
From Stdlib Require Import ZArith Lia Ascii.

Local Open Scope string_scope.
Local Open Scope Z_scope.

(** ** JavaScript values *)

(** The values the node reads from its configuration and writes into a
    message.  Numbers are the integral ones; [parseInt] only ever produces
    those (or NaN, modelled as [None]). *)
Inductive jsval : Type :=
| JUndef
| JNull
| JBool (b : bool)
| JNum (n : Z)
| JStr (s : string).

#[global] Instance jsval_eq_dec : EqDecision jsval.
Proof. solve_decision. Defined.

(** JavaScript truthiness, as used by [||] and by [if (x)]. *)
Definition truthy (v : jsval) : bool :=
  match v with
  | JUndef | JNull => false
  | JBool b => b
  | JNum n => negb (n =? 0)
  | JStr s => negb (String.eqb s "")
  end.

(** *** [parseInt] with the radix left out *)

Definition is_ws (c : ascii) : bool :=
  let n := Z.of_nat (nat_of_ascii c) in
  (n =? 9) || (n =? 10) || (n =? 11) || (n =? 12) || (n =? 13) || (n =? 32).

Fixpoint skip_ws (s : string) : string :=
  match s with
  | String c r => if is_ws c then skip_ws r else s
  | EmptyString => s
  end.

Definition digit_val (radix : Z) (c : ascii) : option Z :=
  let n := Z.of_nat (nat_of_ascii c) in
  let v := if (48 <=? n) && (n <=? 57) then Some (n - 48)
           else if (97 <=? n) && (n <=? 122) then Some (n - 87)
           else if (65 <=? n) && (n <=? 90) then Some (n - 55)
           else None in
  match v with
  | Some d => if d <? radix then Some d else None
  | None => None
  end.

(** The longest prefix of digits; [None] when there is no digit at all. *)
Fixpoint read_digits (radix : Z) (s : string) (acc : option Z) : option Z :=
  match s with
  | String c r =>
      match digit_val radix c with
      | Some d => read_digits radix r (Some (radix * default 0 acc + d))
      | None => acc
      end
  | EmptyString => acc
  end.

Definition strip_sign (s : string) : Z * string :=
  match s with
  | String "-" r => (-1, r)
  | String "+" r => (1, r)
  | _ => (1, s)
  end.

Definition strip_hex (s : string) : Z * string :=
  match s with
  | String "0" (String "x" r) => (16, r)
  | String "0" (String "X" r) => (16, r)
  | _ => (10, s)
  end.

Definition parseInt_string (s : string) : option Z :=
  let '(sign, s1) := strip_sign (skip_ws s) in
  let '(radix, s2) := strip_hex s1 in
  match read_digits radix s2 None with
  | Some n => Some (sign * n)
  | None => None
  end.

(** [parseInt(v)] first converts [v] to a string.  An integral number below
    10^21 prints as its decimal digits and parses back to itself; [undefined],
    [null] and the booleans print as words without a digit.  The rounding of
    magnitudes above 2^53 to a double is left out: it changes neither the
    sign of the result nor whether it is zero. *)
Definition parseInt (v : jsval) : option Z :=
  match v with
  | JStr s => parseInt_string s
  | JNum n => Some n
  | JUndef | JNull | JBool _ => None
  end.

(** [parseInt(v) || d]: NaN and 0 are falsy. *)
Definition parseInt_or (v : jsval) (d : Z) : Z :=
  match parseInt v with
  | Some n => if n =? 0 then d else n
  | None => d
  end.

(** ** The lease store

    The store is the Redis/Valkey server the node talks to through the
    [redis] client: the four commands the node issues on its lock key, plus
    connecting and quitting.  Time is in milliseconds; a key set with
    [EX ttl] is gone once [ttl] seconds have passed. *)

Record entry : Type := Entry {
  e_val : string;          (* the holder's identity *)
  e_exp : option Z         (* instant of expiry, [None]: no expiry *)
}.

Record store : Type := Store {
  now : Z;
  keys : gmap string entry
}.

Inductive command : Type :=
| SET_NX_EX (key value : string) (ttl : Z)
| GET (key : string)
| EXPIRE (key : string) (ttl : Z)
| DEL (key : string)
| CONNECT
| QUIT.

Inductive reply : Type :=
| RNil
| RStr (s : string)
| RInt (n : Z).

(** What the promise of a command settles to: resolved with a reply, or
    rejected with an error whose [message] is the string. *)
Inductive outcome : Type :=
| Reply (r : reply)
| Reject (message : string).

Definition alive (t : Z) (e : entry) : bool :=
  match e_exp e with
  | Some d => t <? d
  | None => true
  end.

(** The entry at [k], if it has not expired. *)
Definition live (st : store) (k : string) : option entry :=
  match keys st !! k with
  | Some e => if alive (now st) e then Some e else None
  | None => None
  end.

Definition holder (st : store) (k : string) : option string :=
  e_val <$> live st k.

Definition put (st : store) (k : string) (e : entry) : store :=
  Store (now st) (<[k := e]> (keys st)).

Definition remove (st : store) (k : string) : store :=
  Store (now st) (delete k (keys st)).

(** [SET k v NX EX ttl] refuses a non-positive [ttl] with an error reply and
    [EXPIRE] with a non-positive [ttl] deletes the key, as the server does. *)
Definition exec_cmd (st : store) (c : command) : outcome * store :=
  match c with
  | SET_NX_EX k v ttl =>
      if ttl <=? 0 then (Reject "ERR invalid expire time in 'set' command", st)
      else match live st k with
           | Some _ => (Reply RNil, st)
           | None => (Reply (RStr "OK"), put st k (Entry v (Some (now st + 1000 * ttl))))
           end
  | GET k =>
      match live st k with
      | Some e => (Reply (RStr (e_val e)), st)
      | None => (Reply RNil, st)
      end
  | EXPIRE k ttl =>
      match live st k with
      | Some e =>
          if ttl <=? 0 then (Reply (RInt 1), remove st k)
          else (Reply (RInt 1), put st k (Entry (e_val e) (Some (now st + 1000 * ttl))))
      | None => (Reply (RInt 0), st)
      end
  | DEL k =>
      match live st k with
      | Some _ => (Reply (RInt 1), remove st k)
      | None => (Reply (RInt 0), st)
      end
  | CONNECT => (Reply (RStr "OK"), st)
  | QUIT => (Reply (RStr "OK"), st)
  end.

(** A command that cannot be served (connection lost, timeout, closed
    client) is rejected and leaves the store as it is. *)
Definition serve (fault : bool) (st : store) (c : command) : outcome * store :=
  if fault then (Reject "connection failure", st) else exec_cmd st c.

Definition elapse (d : Z) (st : store) : store :=
  Store (now st + Z.max 0 d) (keys st).

(** ** The node's closure *)

Inductive level : Type := LLog | LWarn | LError.

#[global] Instance level_eq_dec : EqDecision level.
Proof. solve_decision. Defined.

Record status_rec : Type := Status {
  fill : string;
  shape : string;
  text : string
}.

(** The constants of the closure. *)
Record consts : Type := Consts {
  lockKey : string;
  lockTTL : Z;
  hostname : string
}.

(** The [let] variables of the closure ([redisClient] is [null] or a client)
    and what the node has handed to its host: the interval timers it has
    running, its last status, the output arrays it sent, its log lines and
    the [done] callbacks it invoked. *)
Record node : Type := Node {
  redisClient : bool;
  statusInterval : option nat;
  isConnected : bool;
  timers : list nat;
  timer_seq : nat;
  status : option status_rec;
  sent : list (option (gmap string jsval) * option (gmap string jsval));
  logs : list (level * string);
  done_calls : nat
}.

Definition set_redisClient (b : bool) (nd : node) : node :=
  Node b (statusInterval nd) (isConnected nd) (timers nd) (timer_seq nd)
       (status nd) (sent nd) (logs nd) (done_calls nd).

Definition set_isConnected (b : bool) (nd : node) : node :=
  Node (redisClient nd) (statusInterval nd) b (timers nd) (timer_seq nd)
       (status nd) (sent nd) (logs nd) (done_calls nd).

Definition set_status (s : status_rec) (nd : node) : node :=
  Node (redisClient nd) (statusInterval nd) (isConnected nd) (timers nd) (timer_seq nd)
       (Some s) (sent nd) (logs nd) (done_calls nd).

Definition add_sent (o : option (gmap string jsval) * option (gmap string jsval))
    (nd : node) : node :=
  Node (redisClient nd) (statusInterval nd) (isConnected nd) (timers nd) (timer_seq nd)
       (status nd) (sent nd ++ [o]) (logs nd) (done_calls nd).

Definition add_log (l : level) (s : string) (nd : node) : node :=
  Node (redisClient nd) (statusInterval nd) (isConnected nd) (timers nd) (timer_seq nd)
       (status nd) (sent nd) (logs nd ++ [(l, s)]) (done_calls nd).

Definition add_done (nd : node) : node :=
  Node (redisClient nd) (statusInterval nd) (isConnected nd) (timers nd) (timer_seq nd)
       (status nd) (sent nd) (logs nd) (S (done_calls nd)).

(** [clearInterval(h)] stops the timer [h]; the variable keeps the handle. *)
Definition clear_timer (h : nat) (nd : node) : node :=
  Node (redisClient nd) (statusInterval nd) (isConnected nd)
       (filter (λ t, t ≠ h) (timers nd)) (timer_seq nd)
       (status nd) (sent nd) (logs nd) (done_calls nd).

(** [statusInterval = setInterval(...)]: a fresh running timer. *)
Definition start_timer (nd : node) : node :=
  Node (redisClient nd) (Some (timer_seq nd)) (isConnected nd)
       (timers nd ++ [timer_seq nd]) (S (timer_seq nd))
       (status nd) (sent nd) (logs nd) (done_calls nd).

Definition fresh_node : node :=
  Node false None false [] 0%nat None [] [] 0%nat.

(** ** Asynchronous functions as resumptions

    An [async] function runs until its next [await] on a store command and
    is resumed with the command's outcome and with the closure as it is at
    that moment: other handlers of the same node may have run in between. *)

Inductive Res (A : Type) : Type :=
| Val (a : A) (nd : node)
| Exn (e : string) (nd : node)
| Susp (c : command) (nd : node) (k : outcome → node → Res A).

Arguments Val {A} a nd.
Arguments Exn {A} e nd.
Arguments Susp {A} c nd k.

Definition M (A : Type) : Type := node → Res A.

Definition ret {A} (a : A) : M A := λ nd, Val a nd.

Fixpoint bindR {A B} (r : Res A) (f : A → M B) : Res B :=
  match r with
  | Val a nd => f a nd
  | Exn e nd => Exn e nd
  | Susp c nd k => Susp c nd (λ o nd', bindR (k o nd') f)
  end.

Definition bind {A B} (m : M A) (f : A → M B) : M B := λ nd, bindR (m nd) f.

(** [try { m } catch (err) { h err }] *)
Fixpoint catchR {A} (r : Res A) (h : string → M A) : Res A :=
  match r with
  | Val a nd => Val a nd
  | Exn e nd => h e nd
  | Susp c nd k => Susp c nd (λ o nd', catchR (k o nd') h)
  end.

Definition try_catch {A} (m : M A) (h : string → M A) : M A := λ nd, catchR (m nd) h.

Declare Scope async_scope.
Delimit Scope async_scope with async.
Notation "'let*' x ':=' m 'in' k" := (bind m (λ x, k))
  (at level 10, x name, m at level 100, k at level 200) : async_scope.
Notation "m '>>' k" := (bind m (λ _, k))
  (at level 100, k at level 200, right associativity) : async_scope.

Definition gets {A} (f : node → A) : M A := λ nd, Val (f nd) nd.
Definition modify (f : node → node) : M unit := λ nd, Val tt (f nd).

(** [await redisClient.cmd(...)]: calling a method of [null] throws. *)
Definition await (c : command) : M reply := λ nd,
  if redisClient nd
  then Susp c nd (λ o nd', match o with
                           | Reply r => Val r nd'
                           | Reject e => Exn e nd'
                           end)
  else Exn "Cannot read properties of null" nd.

Definition node_error (s : string) : M unit := modify (add_log LError s).
Definition node_warn (s : string) : M unit := modify (add_log LWarn s).
Definition node_log (s : string) : M unit := modify (add_log LLog s).
Definition node_status (s : status_rec) : M unit := modify (set_status s).
Definition node_send (o : option (gmap string jsval) * option (gmap string jsval)) : M unit :=
  modify (add_sent o).

(** [r === s] for a reply [r] and a string [s]. *)
Definition reply_is (r : reply) (s : string) : bool :=
  match r with
  | RStr v => String.eqb v s
  | _ => false
  end.

Definition reply_val (r : reply) : jsval :=
  match r with
  | RNil => JNull
  | RStr s => JStr s
  | RInt n => JNum n
  end.

(** [s.substring(0, 12)] *)
Definition sub12 (s : string) : string := String.substring 0 12 s.

(** ** The handlers of [ClusterLeaderNode] *)

Section ClusterLeaderNode.

Variable C : consts.

Local Open Scope async_scope.

Definition st_leader : status_rec :=
  Status "green" "dot" ("leader (" +:+ sub12 (hostname C) +:+ ")").

(** [redisClient.on('error', ...)] *)
Definition on_redis_error (message : string) : M unit :=
  node_error ("Redis error: " +:+ message) >>
  node_status (Status "red" "ring" "connection error") >>
  modify (set_isConnected false).

(** [redisClient.on('connect', ...)] *)
Definition on_redis_connect : M unit :=
  node_log "Connected to Redis/Valkey" >>
  modify (set_isConnected true).

Definition checkLeadership : M bool :=
  let* connected := gets isConnected in
  let* client := gets redisClient in
  if negb connected || negb client then ret false
  else
    try_catch
      (let* result := await (SET_NX_EX (lockKey C) (hostname C) (lockTTL C)) in
       ret (reply_is result "OK"))
      (λ err, node_error ("Leader check failed: " +:+ err) >> ret false).

Definition refreshLeadership : M bool :=
  let* connected := gets isConnected in
  let* client := gets redisClient in
  if negb connected || negb client then ret false
  else
    try_catch
      (let* currentLeader := await (GET (lockKey C)) in
       if reply_is currentLeader (hostname C)
       then await (EXPIRE (lockKey C) (lockTTL C)) >> ret true
       else ret false)
      (λ err, node_error ("Leader refresh failed: " +:+ err) >> ret false).

(** The callback of [setInterval] in [startStatusMonitoring]. *)
Definition on_tick : M unit :=
  let* connected := gets isConnected in
  if negb connected then node_status (Status "red" "ring" "disconnected")
  else
    try_catch
      (let* currentLeader := await (GET (lockKey C)) in
       if reply_is currentLeader (hostname C)
       then await (EXPIRE (lockKey C) (lockTTL C)) >> node_status st_leader
       else if truthy (reply_val currentLeader)
       then node_status
              (Status "yellow" "ring"
                 ("follower (leader: " +:+
                  match currentLeader with RStr s => sub12 s | _ => "" end +:+ ")"))
       else node_status (Status "grey" "ring" "no leader"))
      (λ err, node_error ("Status check failed: " +:+ err) >>
              node_status (Status "red" "ring" "error")).

Definition startStatusMonitoring : M unit :=
  let* h := gets statusInterval in
  match h with
  | Some t => modify (clear_timer t)
  | None => ret tt
  end >>
  modify start_timer.

(** [redis.createClient(redisConfig)] with the two listeners attached.  The
    address, port, database and password handed to the client play no part
    in the election and are left out. *)
Definition initRedis : M unit :=
  try_catch
    (modify (set_redisClient true) >>
     await CONNECT >>
     startStatusMonitoring)
    (λ err, node_error ("Failed to connect to Redis: " +:+ err) >>
            node_status (Status "red" "ring" "connection failed")).

Definition tag_leader (msg : gmap string jsval) : gmap string jsval :=
  <["leaderHost" := JStr (hostname C)]> (<["isLeader" := JBool true]> msg).

Definition tag_follower (currentLeader : reply) (msg : gmap string jsval)
    : gmap string jsval :=
  <["followerHost" := JStr (hostname C)]>
    (<["leaderHost" := reply_val currentLeader]>
       (<["isLeader" := JBool false]> msg)).

Definition st_follower (currentLeader : reply) : status_rec :=
  Status "yellow" "ring"
    ("follower (leader: " +:+
     (if truthy (reply_val currentLeader)
      then match currentLeader with RStr s => sub12 s | _ => "" end
      else "unknown") +:+ ")").

(** [node.on('input', async function(msg) {...})] *)
Definition on_input (msg : gmap string jsval) : M unit :=
  let* connected := gets isConnected in
  if negb connected then node_warn "Not connected to Redis, dropping message"
  else
    try_catch
      (let* isLeader := checkLeadership in
       let* isLeader := (if negb isLeader then refreshLeadership else ret isLeader) in
       if isLeader
       then node_send (Some (tag_leader msg), None) >> node_status st_leader
       else
         let* currentLeader := await (GET (lockKey C)) in
         node_send (None, Some (tag_follower currentLeader msg)) >>
         node_status (st_follower currentLeader))
      (λ err, node_error ("Leader election failed: " +:+ err) >>
              node_status (Status "red" "ring" "error")).

(** [node.on('close', async function(done) {...})] *)
Definition on_close : M unit :=
  let* h := gets statusInterval in
  match h with
  | Some t => modify (clear_timer t)
  | None => ret tt
  end >>
  let* client := gets redisClient in
  let* connected := gets isConnected in
  (if client && connected
   then
     try_catch
       (let* currentLeader := await (GET (lockKey C)) in
        (if reply_is currentLeader (hostname C)
         then await (DEL (lockKey C)) >> node_log "Released leadership lock"
         else ret tt) >>
        await QUIT >> ret tt)
       (λ err, node_error ("Error during cleanup: " +:+ err))
   else ret tt) >>
  modify add_done.

End ClusterLeaderNode.

(** The constants [ClusterLeaderNode(config)] computes from its
    configuration and from the process environment. *)
Record config : Type := Config {
  cfg_lockKey : option string;
  cfg_lockTTL : jsval
}.

Record environment : Type := Environment {
  env_HOSTNAME : option string;
  os_hostname : string
}.

Definition ClusterLeaderNode (cfg : config) (env : environment) : consts :=
  Consts
    (match cfg_lockKey cfg with
     | Some s => if truthy (JStr s) then s else "nodered:leader"
     | None => "nodered:leader"
     end)
    (parseInt_or (cfg_lockTTL cfg) 10)
    (match env_HOSTNAME env with
     | Some h => if truthy (JStr h) then h else os_hostname env
     | None => os_hostname env
     end).

(** ** Running a handler

    A handler meets the store once per [await].  A [world] is what it meets
    there: the store as the command finds it, whether the command can be
    served, and the connection flag as the continuation finds it (the
    ['error'] and ['connect'] listeners may have run in between). *)

Record world : Type := World {
  w_store : store;
  w_fault : bool;
  w_conn : bool
}.

Record event : Type := Event {
  ev_cmd : command;
  ev_out : outcome;
  ev_before : store;
  ev_after : store
}.

(** Runs [r] through the worlds [ws], one per command, and returns the
    commands it issued with their outcomes and where it got to. *)
Fixpoint run {A} (r : Res A) (ws : list world) {struct r} : list event * Res A :=
  match r with
  | Susp c nd k =>
      match ws with
      | w :: ws' =>
          let '(o, st') := serve (w_fault w) (w_store w) c in
          let '(evs, r') := run (k o (set_isConnected (w_conn w) nd)) ws' in
          (Event c o (w_store w) st' :: evs, r')
      | [] => ([], r)
      end
  | _ => ([], r)
  end.

(** Runs [r] to its end against one store with nothing else happening. *)
Fixpoint run_atomic {A} (r : Res A) (st : store) : store * Res A :=
  match r with
  | Susp c nd k =>
      let '(o, st') := exec_cmd st c in run_atomic (k o nd) st'
  | _ => (st, r)
  end.

Definition final_node {A} (r : Res A) : node :=
  match r with
  | Val _ nd | Exn _ nd | Susp _ nd _ => nd
  end.

Definition finished {A} (r : Res A) : bool :=
  match r with
  | Val _ _ => true
  | _ => false
  end.

(** ** Several processes on one store

    Every command is atomic at the store.  A step serves the pending command
    of one task and runs that task on to its next [await]; what the task does
    on the way only touches the closure of its own node, so taking the two
    together loses no behaviour.  Between steps time passes, triggers, ticks
    and close requests arrive, and the client emits its events. *)

Record task : Type := Task {
  t_cmd : command;
  t_k : outcome → node → Res unit
}.

Record proc : Type := Proc {
  p_consts : consts;
  p_node : node;
  p_tasks : list task
}.

Record system : Type := System {
  s_store : store;
  s_procs : list proc
}.

Inductive label : Type :=
| Elapse (d : Z)                       (* time passes *)
| Serve (i j : nat) (fault : bool)     (* the command of task [j] of process [i] is served *)
| Input (i : nat) (msg : gmap string jsval)
| Tick (i : nat)
| Close (i : nat)
| Start (i : nat)
| RedisError (i : nat) (message : string)
| RedisConnect (i : nat).

(** Where a handler stops, the closure it leaves and the task it leaves
    waiting, if any. *)
Definition settle (p : proc) (others : list task) (r : Res unit) : proc :=
  match r with
  | Val _ nd | Exn _ nd => Proc (p_consts p) nd others
  | Susp c nd k => Proc (p_consts p) nd (others ++ [Task c k])
  end.

Definition launch (m : consts → M unit) (p : proc) : proc :=
  settle p (p_tasks p) (m (p_consts p) (p_node p)).

(** The socket's ['connect'] event is emitted before the promise of
    [connect()] resolves. *)
Definition before_resume (c : command) (o : outcome) (nd : node) : node :=
  match c, o with
  | CONNECT, Reply _ => final_node (on_redis_connect nd)
  | _, _ => nd
  end.

(** Task [j] of [p] gets the outcome [o] of its command and runs on. *)
Definition resume (p : proc) (j : nat) (t : task) (o : outcome) : proc :=
  settle p (delete j (p_tasks p))
    (t_k t o (before_resume (t_cmd t) o (p_node p))).

Definition step (l : label) (s : system) : option system :=
  match l with
  | Elapse d => Some (System (elapse d (s_store s)) (s_procs s))
  | Serve i j fault =>
      p ← s_procs s !! i;
      t ← p_tasks p !! j;
      let '(o, st') := serve fault (s_store s) (t_cmd t) in
      Some (System st' (<[i := resume p j t o]> (s_procs s)))
  | Input i msg =>
      p ← s_procs s !! i;
      Some (System (s_store s) (<[i := launch (λ C, on_input C msg) p]> (s_procs s)))
  | Tick i =>
      p ← s_procs s !! i;
      match timers (p_node p) with
      | [] => None
      | _ :: _ => Some (System (s_store s) (<[i := launch on_tick p]> (s_procs s)))
      end
  | Close i =>
      p ← s_procs s !! i;
      Some (System (s_store s) (<[i := launch on_close p]> (s_procs s)))
  | Start i =>
      p ← s_procs s !! i;
      Some (System (s_store s) (<[i := launch (λ _, initRedis) p]> (s_procs s)))
  | RedisError i message =>
      p ← s_procs s !! i;
      Some (System (s_store s)
              (<[i := launch (λ _, on_redis_error message) p]> (s_procs s)))
  | RedisConnect i =>
      p ← s_procs s !! i;
      Some (System (s_store s) (<[i := launch (λ _, on_redis_connect) p]> (s_procs s)))
  end.

Fixpoint exec (ls : list label) (s : system) : option system :=
  match ls with
  | [] => Some s
  | l :: ls' => s' ← step l s; exec ls' s'
  end.

Definition empty_store : store := Store 0 ∅.

(** A process as its constructor leaves it, before [initRedis] has run. *)
Definition new_proc (cfg : config) (env : environment) : proc :=
  Proc (ClusterLeaderNode cfg env) fresh_node [].

(** ** Notions used by the properties *)

(** *** Observations on a run *)

Definition commands (evs : list event) : list command := map ev_cmd evs.

Definition is_reply (o : outcome) : bool :=
  match o with
  | Reply _ => true
  | Reject _ => false
  end.

Definition errors (nd : node) : list (level * string) :=
  filter (λ e, e.1 = LError) (logs nd).

(** What process [i] has sent, has pending and the holder of the lock key
    after a run. *)
Definition sent_by (i : nat) (os : option system) :
    option (list (option (gmap string jsval) * option (gmap string jsval))) :=
  s ← os; p ← s_procs s !! i; Some (sent (p_node p)).

Definition pending_of (i : nat) (os : option system) : option (list command) :=
  s ← os; p ← s_procs s !! i; Some (t_cmd <$> p_tasks p).

Definition holder_after (k : string) (os : option system) : option (option string) :=
  s ← os; Some (holder (s_store s) k).

Definition node_of (i : nat) (os : option system) : option node :=
  s ← os; p ← s_procs s !! i; Some (p_node p).

(** The two arrays a trigger can send. *)
Definition leader_out (C : consts) (m : gmap string jsval)
    : option (gmap string jsval) * option (gmap string jsval) :=
  (Some (tag_leader C m), None).

Definition follower_out (C : consts) (w : string) (m : gmap string jsval)
    : option (gmap string jsval) * option (gmap string jsval) :=
  (None, Some (tag_follower C (RStr w) m)).

(** *** States of a node *)

(** Connected, with the monitor running. *)
Definition Ready (nd : node) : Prop :=
  redisClient nd = true ∧ isConnected nd = true ∧
  ∃ t, statusInterval nd = Some t ∧ t ∈ timers nd.

(** Every running timer of the node is the one [statusInterval] refers to:
    [startStatusMonitoring] clears the old timer before it starts a new one. *)
Definition timers_ok (nd : node) : Prop :=
  ∀ t, t ∈ timers nd → statusInterval nd = Some t.

(** A handler keeps the timers in order: it does so up to each of its
    suspensions and again from whatever closure it is resumed in. *)
Inductive Keeps {A : Type} : Res A → Prop :=
| K_val a nd : timers_ok nd → Keeps (Val a nd)
| K_exn e nd : timers_ok nd → Keeps (Exn e nd)
| K_susp c nd k :
    timers_ok nd → (∀ o nd', timers_ok nd' → Keeps (k o nd')) → Keeps (Susp c nd k).

Definition keeps {A : Type} (m : M A) : Prop := ∀ nd, timers_ok nd → Keeps (m nd).

(** Every node's timers are in order and every waiting task keeps them so. *)
Definition task_keeps (t : task) : Prop :=
  ∀ o nd, timers_ok nd → Keeps (t_k t o nd).

Definition proc_ok (p : proc) : Prop :=
  timers_ok (p_node p) ∧ Forall task_keeps (p_tasks p).

(** *** Races *)

(** The calls in flight: each process has called the handler with its
    message and waits for its first command to be served. *)
Definition start_calls (cs : list (proc * gmap string jsval)) : list proc :=
  (λ c, launch (λ C, on_input C c.2) c.1) <$> cs.

(** A caller is connected, idle and has sent nothing yet; its lock key is
    [key] and its TTL is longer than [b] milliseconds. *)
Definition caller (key : string) (b : Z) (c : proc * gmap string jsval) : Prop :=
  p_tasks c.1 = [] ∧ sent (p_node c.1) = [] ∧
  redisClient (p_node c.1) = true ∧ isConnected (p_node c.1) = true ∧
  lockKey (p_consts c.1) = key ∧ b < 1000 * lockTTL (p_consts c.1).

(** The steps of a race: time passes and commands are served. *)
Definition calm (l : label) : Prop :=
  match l with
  | Elapse _ => True
  | Serve _ _ fault => fault = false
  | _ => False
  end.

(** The time that passes during a run. *)
Fixpoint delay (ls : list label) : Z :=
  match ls with
  | Elapse d :: ls' => Z.max 0 d + delay ls'
  | _ :: ls' => delay ls'
  | [] => 0
  end.

(** A process that can only end as a follower of [w]: whenever [w] holds
    the key its pending command leaves the store alone, and when its handler
    ends it has sent exactly [out]. *)
Inductive Follower (key w : string)
    (out : option (gmap string jsval) * option (gmap string jsval)) : proc → Prop :=
| F_done p :
    p_tasks p = [] → sent (p_node p) = [out] → Follower key w out p
| F_step p t :
    p_tasks p = [t] →
    (∀ st, holder st key = Some w → snd (serve false st (t_cmd t)) = st) →
    (∀ st, holder st key = Some w →
       Follower key w out (resume p 0 t (fst (serve false st (t_cmd t))))) →
    Follower key w out p.

(** What process [j] must have sent at the end when [i] has won as [w]. *)
Definition settled (key : string) (i : nat) (w : string) (j : nat)
    (c : proc * gmap string jsval) (q : proc) : Prop :=
  if decide (j = i)
  then p_tasks q = [] ∧ sent (p_node q) = [leader_out (p_consts c.1) c.2]
  else Follower key w (follower_out (p_consts c.1) w c.2) q.

(** No command has been served yet. *)
Definition Open (key : string) (cs : list (proc * gmap string jsval))
    (s : system) : Prop :=
  s_procs s = start_calls cs ∧ holder (s_store s) key = None.

(** Process [i] has won as [w] and its lease outlives the time [b] that the
    rest of the race may take. *)
Definition Won (key : string) (cs : list (proc * gmap string jsval))
    (i : nat) (w : string) (b : Z) (s : system) : Prop :=
  length (s_procs s) = length cs ∧
  (∃ dl, keys (s_store s) !! key = Some (Entry w (Some dl)) ∧
         now (s_store s) + b < dl) ∧
  ∀ j c, cs !! j = Some c → ∃ q, s_procs s !! j = Some q ∧ settled key i w j c q.

(** *** Sample nodes, stores and runs *)

Definition demo_consts : consts := Consts "nodered:leader" 10 "host-a".
Definition host_b : consts := Consts "nodered:leader" 10 "host-b".
Definition demo_env : environment := Environment (Some "host-a") "box".
Definition demo_msg : gmap string jsval := {[ "payload" := JNum 1 ]}.

(** A node with a client that is not connected, the same node connected,
    and the same with its monitor running. *)
Definition offline_node : node := set_redisClient true fresh_node.
Definition online_node : node := set_isConnected true offline_node.
Definition ready_node : node := start_timer online_node.

(** The default lock key held by [h] until the instant [until]. *)
Definition held_store (h : string) (until : Z) : store :=
  put empty_store "nodered:leader" (Entry h (Some until)).

(** A world in which the command is served, and one in which it fails. *)
Definition quiet (st : store) : world := World st false true.
Definition down (st : store) : world := World st true true.

Definition two_nodes : system :=
  System empty_store
    [new_proc (Config None (JStr "10")) (Environment (Some "host-a") "box");
     new_proc (Config None (JStr "10")) (Environment (Some "host-b") "box")].

(** Both nodes start and connect, [host-a] is triggered and acquires the
    lease, [host-b] is triggered and its conditional set is refused. *)
Definition b_refused : list label :=
  [Start 0; Serve 0 0 false; Start 1; Serve 1 0 false;
   Input 0 demo_msg; Serve 0 0 false;
   Input 1 demo_msg; Serve 1 0 false]%nat.

(** The lease runs out before [host-b] reads the holder. *)
Definition race_by_expiry : list label :=
  b_refused ++ [Elapse 10000; Serve 1 0 false; Serve 1 0 false]%nat.

(** [host-a] shuts down and releases before [host-b] reads the holder. *)
Definition race_by_release : list label :=
  b_refused ++ [Close 0; Serve 0 0 false; Serve 0 0 false;
                Serve 1 0 false; Serve 1 0 false]%nat.

Definition contender (h : string) : proc * gmap string jsval :=
  (Proc (Consts "nodered:leader" 10 h) online_node [], demo_msg).

Definition callers3 : list (proc * gmap string jsval) :=
  [contender "host-a"; contender "host-b"; contender "host-c"].

(** [host-b]'s conditional set arrives first. *)
Definition race3 : list label :=
  [Serve 1 0 false; Elapse 500; Serve 0 0 false; Serve 2 0 false;
   Serve 0 0 false; Elapse 100; Serve 2 0 false; Serve 0 0 false;
   Serve 2 0 false]%nat.

Definition after_race3 : system :=
  default (System empty_store [])
    (exec race3 (System empty_store (start_calls callers3))).

(** Two callers with a TTL of one second, and a race in which the second
    conditional set is served after the first caller's lease has run out. *)
Definition brief_callers : list (proc * gmap string jsval) :=
  [(Proc (Consts "nodered:leader" 1 "host-a") online_node [], demo_msg);
   (Proc (Consts "nodered:leader" 1 "host-b") online_node [], demo_msg)].

Definition slow_race : list label :=
  [Serve 0 0 false; Elapse 1001; Serve 1 0 false]%nat.

(** *** Further observations *)

(** What a handler has sent since it was started in the closure [nd]. *)
Definition newly_sent {A} (nd : node) (r : Res A)
    : list (option (gmap string jsval) * option (gmap string jsval)) :=
  drop (length (sent nd)) (sent (final_node r)).

(** The store as the last command of a run left it; [st] when the run issued
    no command. *)
Definition store_after (st : store) (evs : list event) : store :=
  match last evs with
  | Some e => ev_after e
  | None => st
  end.

(** The store has confirmed the caller as leader: its conditional set was
    answered [OK], or a holder read answered its identity and the refresh
    that followed was served. *)
Definition confirmed (C : consts) (evs : list event) : Prop :=
  (∃ e, e ∈ evs ∧ ev_cmd e = SET_NX_EX (lockKey C) (hostname C) (lockTTL C) ∧
        ev_out e = Reply (RStr "OK")) ∨
  (∃ g x r, g ∈ evs ∧ ev_cmd g = GET (lockKey C) ∧
            ev_out g = Reply (RStr (hostname C)) ∧
            x ∈ evs ∧ ev_cmd x = EXPIRE (lockKey C) (lockTTL C) ∧
            ev_out x = Reply r).

(** The period of [setInterval] in [startStatusMonitoring], in milliseconds. *)
Definition tick_period : Z := 2000.

(** [n] ticks of an otherwise idle node, one period apart, each finishing
    before the next. *)
Fixpoint beats (C : consts) (n : nat) (nd : node) (st : store) : store * node :=
  match n with
  | O => (st, nd)
  | S n' =>
      let r := run_atomic (on_tick C nd) (elapse tick_period st) in
      beats C n' (final_node (snd r)) (fst r)
  end.

(** At most one timer of the node is running, and [statusInterval] refers
    to it. *)
Definition one_timer (nd : node) : Prop :=
  timers nd = [] ∨ ∃ t, statusInterval nd = Some t ∧ timers nd = [t].

(** *** Decimal numerals *)

Definition digit_char (d : nat) : ascii := ascii_of_nat (48 + d).

Fixpoint numeral (ds : list nat) : string :=
  match ds with
  | [] => EmptyString
  | d :: ds' => String (digit_char d) (numeral ds')
  end.

Definition numeral_value (ds : list nat) : Z :=
  fold_left (λ acc d, 10 * acc + Z.of_nat d) ds 0.

(** The text after a numeral: empty, or starting with something that is
    not a decimal digit. *)
Definition no_digit_ahead (s : string) : Prop :=
  match s with
  | String c _ => digit_val 10 c = None
  | EmptyString => True
  end.

(** The text starts with the [x] that makes a leading [0] a hexadecimal
    prefix. *)
Definition hex_mark (s : string) : bool :=
  match s with
  | String "x" _ | String "X" _ => true
  | _ => false
  end.

(** *** Properties of the timers kept by the handlers *)

(** A property of the closure that only looks at the timers and at
    [statusInterval]. *)
Definition on_timers (P : node → Prop) : Prop :=
  ∀ nd nd', timers nd' = timers nd → statusInterval nd' = statusInterval nd →
            P nd → P nd'.

(** A handler keeps [P]: it does so up to each of its suspensions and again
    from whatever closure satisfying [P] it is resumed in. *)
Inductive Holds (P : node → Prop) {A : Type} : Res A → Prop :=
| H_val a nd : P nd → Holds P (Val a nd)
| H_exn e nd : P nd → Holds P (Exn e nd)
| H_susp c nd k :
    P nd → (∀ o nd', P nd' → Holds P (k o nd')) → Holds P (Susp c nd k).

Definition holds (P : node → Prop) {A : Type} (m : M A) : Prop :=
  ∀ nd, P nd → Holds P (m nd).

Definition task_holds (P : node → Prop) (t : task) : Prop :=
  ∀ o nd, P nd → Holds P (t_k t o nd).

Definition proc_holds (P : node → Prop) (p : proc) : Prop :=
  P (p_node p) ∧ Forall (task_holds P) (p_tasks p).

Definition is_start (l : label) : bool :=
  match l with
  | Start _ => true
  | _ => false
  end.

(** No timer of the node is running. *)
Definition no_timer (nd : node) : Prop := timers nd = [].

(** The default lock key held by host-a, a second after the lease ran out. *)
Definition gone_store : store := elapse 6000 (held_store "host-a" 5000).

(** * Properties *)

Local Open Scope list_scope.

(** ** Proof automation *)

Arguments live : simpl never.
Arguments put : simpl never.
Arguments remove : simpl never.
Arguments st_leader : simpl never.
Arguments st_follower : simpl never.
Arguments tag_leader : simpl never.
Arguments tag_follower : simpl never.
Arguments String.append : simpl never.
Arguments String.eqb : simpl never.

Ltac unfold_handlers :=
  unfold on_input, on_tick, on_close, initRedis, startStatusMonitoring,
    checkLeadership, refreshLeadership, on_redis_error, on_redis_connect,
    node_error, node_warn, node_log, node_status, node_send,
    try_catch, bind, ret, gets, modify, await in *.

(** Case analysis on whatever a stuck run is waiting for. *)
Ltac case_on x :=
  lazymatch x with
  | negb ?y => case_on y
  | andb ?y _ => case_on y
  | orb ?y _ => case_on y
  | _ => destruct x eqn:?; try congruence
  end.

Ltac case_step H :=
  match type of H with
  | context [match ?x with _ => _ end] =>
      lazymatch x with
      | context [match _ with _ => _ end] => fail
      | serve _ _ _ => unfold serve in H
      | _ => case_on x
      end
  end.

Ltac run_cases H := simpl in H; repeat (case_step H; simpl in H).

Ltac str_eqs :=
  repeat match goal with
  | H : String.eqb _ _ = true |- _ => apply String.eqb_eq in H
  | H : String.eqb _ _ = false |- _ => apply String.eqb_neq in H
  end.

Ltac z_eqs :=
  repeat match goal with
  | H : (_ <=? _) = true |- _ => apply Z.leb_le in H
  | H : (_ <=? _) = false |- _ => apply Z.leb_gt in H
  | H : (_ <? _) = true |- _ => apply Z.ltb_lt in H
  | H : (_ <? _) = false |- _ => apply Z.ltb_ge in H
  end.

Ltac use_live :=
  unfold holder in *;
  repeat match goal with
  | H : live ?s ?k = _, H' : context [live ?s ?k] |- _ => rewrite H in H'
  | H : live ?s ?k = _ |- context [live ?s ?k] => rewrite H
  end.

Ltac use_eqs :=
  repeat match goal with
  | H : ?x = true |- context [?x] => rewrite H
  | H : ?x = false |- context [?x] => rewrite H
  | H : ?x = Some _ |- context [?x] => rewrite H
  | H : ?x = None |- context [?x] => rewrite H
  end.

Ltac norm := simpl; repeat (progress (use_eqs; simpl)).

Ltac list_facts :=
  str_eqs; repeat split; intros; use_live; simplify_eq/=; eauto;
  repeat match goal with
  | H : _ ∈ [] |- _ => by apply elem_of_nil in H
  | H : _ ∈ _ :: _ |- _ => apply elem_of_cons in H as [?|?]; simplify_eq/=
  | H : _ ∨ _ |- _ => destruct H
  | |- _ ∉ _ => intros ?
  end; eauto; try done; try lia;
  try (eexists; repeat split; simpl; congruence);
  try (exfalso; use_live; simpl in *; congruence).

Ltac split_foralls :=
  repeat match goal with
  | H : Forall _ (_ :: _) |- _ => apply Forall_cons in H as [? H]
  | H : Forall _ [] |- _ => clear H
  end.

(** ** The configured values *)

Example parseInt_plain : parseInt (JStr "10") = Some 10.
Proof. reflexivity. Qed.

Example parseInt_prefix : parseInt (JStr "  -7 seconds") = Some (-7).
Proof. reflexivity. Qed.

Example parseInt_hex : parseInt (JStr "0x1f") = Some 31.
Proof. reflexivity. Qed.

Example parseInt_nan :
  parseInt (JStr "ten") = None ∧ parseInt (JStr "") = None ∧ parseInt JUndef = None.
Proof. by repeat split. Qed.

Example constructor_defaults :
  ClusterLeaderNode (Config None JUndef) (Environment None "box")
  = Consts "nodered:leader" 10 "box".
Proof. reflexivity. Qed.

(** ** Triggers while disconnected *)

(** C8. A trigger that arrives while [isConnected] is false is dropped: a
    warning is logged, the handler ends without issuing any store command
    (so no verdict is computed and the store is not touched) and nothing is
    sent on either output. *)
Theorem input_dropped_while_disconnected
    (C : consts) (msg : gmap string jsval) (nd : node) (ws : list world) :
  isConnected nd = false →
  ∃ nd', run (on_input C msg nd) ws = ([], Val tt nd') ∧
         sent nd' = sent nd ∧
         status nd' = status nd ∧
         logs nd' = logs nd ++ [(LWarn, "Not connected to Redis, dropping message")].
Proof.
  intros Hc. unfold_handlers. rewrite Hc. simpl. eauto.
Qed.

Lemma input_dropped_while_disconnected_witness :
  isConnected offline_node = false ∧
  ∃ nd', run (on_input demo_consts demo_msg offline_node) [World empty_store false false]
         = ([], Val tt nd') ∧
         sent nd' = sent offline_node ∧
         status nd' = status offline_node ∧
         logs nd' = logs offline_node ++ [(LWarn, "Not connected to Redis, dropping message")].
Proof.
  split; [reflexivity |].
  apply (input_dropped_while_disconnected demo_consts demo_msg offline_node). reflexivity.
Defined.

(** ** The heartbeat monitor *)

(** C7. A tick of the monitor issues at most a [GET] of the lock key
    followed by an [EXPIRE] of it, never a conditional set; the [EXPIRE] is
    issued only after the [GET] has answered this process's own identity;
    the [GET] leaves the store as it is, so a tick that reads another
    holder, reads no holder, cannot reach the store, or runs while
    disconnected changes nothing in the store.  With a world for each of its
    two commands the tick runs to its end. *)
Theorem tick_never_acquires (C : consts) (nd : node) (ws : list world) :
  let evs := (run (on_tick C nd) ws).1 in
  (commands evs = [] ∨ commands evs = [GET (lockKey C)] ∨
   commands evs = [GET (lockKey C); EXPIRE (lockKey C) (lockTTL C)]) ∧
  (∀ k v ttl, SET_NX_EX k v ttl ∉ commands evs) ∧
  (EXPIRE (lockKey C) (lockTTL C) ∈ commands evs →
     ∃ g, head evs = Some g ∧ ev_cmd g = GET (lockKey C) ∧
          ev_out g = Reply (RStr (hostname C))) ∧
  (∀ e, e ∈ evs → ev_cmd e = GET (lockKey C) → ev_after e = ev_before e) ∧
  (isConnected nd = false → evs = []) ∧
  (∀ w ws', ws = w :: ws' →
     w_fault w = true ∨ holder (w_store w) (lockKey C) ≠ Some (hostname C) →
     ∀ e, e ∈ evs → ev_after e = ev_before e) ∧
  ((2 ≤ length ws)%nat → finished (run (on_tick C nd) ws).2 = true).
Proof.
  intros evs. subst evs.
  remember (run (on_tick C nd) ws) as res eqn:E.
  unfold_handlers. unfold serve, holder in *.
  run_cases E; subst res.
  all: list_facts.
Qed.

Lemma tick_never_acquires_witness :
  let evs := (run (on_tick demo_consts online_node)
                [World (held_store "host-a" 5000) false true;
                 World (held_store "host-a" 5000) false true]).1 in
  EXPIRE "nodered:leader" 10 ∈ commands evs ∧
  ∃ g, head evs = Some g ∧ ev_cmd g = GET "nodered:leader" ∧
       ev_out g = Reply (RStr "host-a").
Proof.
  pose proof (tick_never_acquires demo_consts online_node
                [World (held_store "host-a" 5000) false true;
                 World (held_store "host-a" 5000) false true]) as H.
  simpl in H. destruct H as (_ & _ & H & _).
  assert (Hin : EXPIRE "nodered:leader" 10 ∈
     commands (run (on_tick demo_consts online_node)
                [World (held_store "host-a" 5000) false true;
                 World (held_store "host-a" 5000) false true]).1).
  { vm_compute. apply list_elem_of_further, list_elem_of_here. }
  exact (conj Hin (H Hin)).
Defined.

(** ** Shutdown *)

Lemma filter_all_out (t : nat) (l : list nat) :
  (∀ x, x ∈ l → x = t) → filter (λ x, x ≠ t) l = [].
Proof.
  induction l as [|x l IH]; intros H; [done |].
  rewrite filter_cons_False.
  - apply IH. intros y Hy. apply H. by apply list_elem_of_further.
  - intros Hne. apply Hne, H, list_elem_of_here.
Qed.

Lemma clear_timer_none (nd : node) (t : nat) :
  timers_ok nd → statusInterval nd = Some t → timers (clear_timer t nd) = [].
Proof.
  intros Hok Ht. simpl. apply filter_all_out.
  intros x Hx. apply Hok in Hx. congruence.
Qed.

Lemma no_handle_no_timer (nd : node) :
  timers_ok nd → statusInterval nd = None → timers nd = [].
Proof.
  intros Hok Hn. destruct (timers nd) as [|x l] eqn:E; [done |].
  specialize (Hok x). rewrite E in Hok.
  specialize (Hok (list_elem_of_here _ _)). congruence.
Qed.

Lemma close_clears_first (C : consts) (nd : node) :
  timers_ok nd → timers (final_node (on_close C nd)) = [].
Proof.
  intros Hok.
  assert (Hclr : timers (match statusInterval nd with
                         | Some t => clear_timer t nd | None => nd end) = []).
  { destruct (statusInterval nd) eqn:Hs;
      eauto using clear_timer_none, no_handle_no_timer. }
  remember (final_node (on_close C nd)) as fn eqn:F.
  unfold_handlers. run_cases F; by subst fn.
Qed.

(** C9, as the code has it.  Every run of the close handler ends and invokes
    [done] exactly once, whatever the outcomes of its commands.  It clears
    the monitor's timer before it issues any command, so the timers the
    node has running at that moment are stopped.  Without a client or while disconnected it issues
    no command at all.  With a client and connected it first reads the
    holder; when the read is served it issues [DEL] exactly if the holder is
    its own identity, and when the release has raised no error it then
    issues [QUIT]. *)
Theorem close_sequence (C : consts) (nd : node) (ws : list world) :
  timers_ok nd → (3 ≤ length ws)%nat →
  let evs := fst (run (on_close C nd) ws) in
  ∃ nd', snd (run (on_close C nd) ws) = Val tt nd' ∧
    done_calls nd' = S (done_calls nd) ∧
    timers (final_node (on_close C nd)) = [] ∧
    timers nd' = [] ∧
    (redisClient nd && isConnected nd = false → evs = []) ∧
    (redisClient nd && isConnected nd = true →
       ∃ g rest, evs = g :: rest ∧ ev_cmd g = GET (lockKey C) ∧
         match ev_out g with
         | Reject _ => True
         | Reply r =>
             if reply_is r (hostname C)
             then ∃ d rest', rest = d :: rest' ∧ ev_cmd d = DEL (lockKey C) ∧
                    match ev_out d with
                    | Reject _ => True
                    | Reply _ => commands rest' = [QUIT]
                    end
             else commands rest = [QUIT]
         end).
Proof.
  intros Hok Hlen evs. subst evs.
  pose proof (close_clears_first C nd Hok) as Hfirst.
  assert (Hclr : timers (match statusInterval nd with
                         | Some t => clear_timer t nd | None => nd end) = []).
  { destruct (statusInterval nd) eqn:Hs;
      eauto using clear_timer_none, no_handle_no_timer. }
  revert Hfirst. generalize (timers (final_node (on_close C nd))). intros tf Hfirst.
  remember (run (on_close C nd) ws) as res eqn:E.
  unfold_handlers.
  run_cases E; subst res; simpl in *; try lia.
  all: eexists; split; [reflexivity |]; norm.
  all: repeat split; try done; intros; simplify_eq/=.
  all: try (eexists _, _; do 2 (split; [reflexivity |]); norm; try done).
  all: try (eexists _, _; do 2 (split; [reflexivity |]); norm; try done).
Qed.

Lemma ready_node_timers_ok : timers_ok ready_node.
Proof. intros t Ht. apply list_elem_of_singleton in Ht. by subst t. Qed.

Lemma close_sequence_witness :
  timers_ok ready_node ∧
  ∃ nd', (run (on_close demo_consts ready_node)
            [quiet (held_store "host-a" 5000); quiet (held_store "host-a" 5000);
             quiet empty_store]).2 = Val tt nd' ∧
         done_calls nd' = 1%nat ∧ timers nd' = [].
Proof.
  split; [exact ready_node_timers_ok |].
  destruct (close_sequence demo_consts ready_node
              [quiet (held_store "host-a" 5000); quiet (held_store "host-a" 5000);
               quiet empty_store] ready_node_timers_ok)
    as (nd' & Hr & Hd & _ & Ht & _); [simpl; lia |].
  exists nd'. auto.
Defined.

(** A node that has a client and a running monitor but is not connected:
    its close handler ends and invokes [done], and issues no command, so
    neither a release nor [QUIT].  A node comes to that state when its
    client emits ['error'] after startup; closed then, it leaves no command
    waiting and has invoked [done]. *)
Lemma close_offline_issues_nothing :
  let nd := start_timer offline_node in
  let r := run (on_close demo_consts nd)
             [quiet (held_store "host-a" 5000); quiet (held_store "host-a" 5000);
              quiet empty_store] in
  let after := exec [Start 0; Serve 0 0 false; RedisError 0 "Socket closed"; Close 0]%nat
                 two_nodes in
  timers_ok nd ∧ redisClient nd = true ∧
  commands (fst r) = [] ∧ (QUIT ∉ commands (fst r)) ∧
  finished (snd r) = true ∧ done_calls (final_node (snd r)) = 1%nat ∧
  pending_of 0 after = Some [] ∧
  done_calls <$> node_of 0 after = Some 1%nat.
Proof.
  split; [| repeat split; try (vm_compute; reflexivity)].
  - intros t Ht. apply list_elem_of_singleton in Ht. by subst t.
  - intros H. by apply elem_of_nil in H.
Qed.

(** A close request that arrives while [connect()] is still pending finds
    no timer to clear and no connection; when the connection is made
    afterwards the monitor starts all the same. *)
Lemma monitor_can_start_after_close :
  let after := exec [Start 0; Close 0; Serve 0 0 false]%nat two_nodes in
  done_calls <$> node_of 0 after = Some 1%nat ∧
  timers <$> node_of 0 after = Some [0%nat] ∧
  pending_of 0 after = Some [].
Proof. repeat split; vm_compute; reflexivity. Qed.

(** ** The timer invariant in every reachable state *)

Lemma keeps_bindR {A B} (r : Res A) (f : A → M B) :
  Keeps r → (∀ a, keeps (f a)) → Keeps (bindR r f).
Proof.
  intros Hr Hf. induction Hr as [a nd Hnd | e nd Hnd | c nd k Hnd Hk IH]; simpl.
  - by apply Hf.
  - by constructor.
  - constructor; [done |]. intros o nd' Hnd'. by apply IH.
Qed.

Lemma keeps_catchR {A} (r : Res A) (h : string → M A) :
  Keeps r → (∀ e, keeps (h e)) → Keeps (catchR r h).
Proof.
  intros Hr Hh. induction Hr as [a nd Hnd | e nd Hnd | c nd k Hnd Hk IH]; simpl.
  - by constructor.
  - by apply Hh.
  - constructor; [done |]. intros o nd' Hnd'. by apply IH.
Qed.

Lemma keeps_bind {A B} (m : M A) (f : A → M B) :
  keeps m → (∀ a, keeps (f a)) → keeps (bind m f).
Proof. intros Hm Hf nd Hnd. apply keeps_bindR; auto. Qed.

Lemma keeps_try {A} (m : M A) (h : string → M A) :
  keeps m → (∀ e, keeps (h e)) → keeps (try_catch m h).
Proof. intros Hm Hh nd Hnd. apply keeps_catchR; auto. Qed.

Lemma keeps_ret {A} (a : A) : keeps (ret a).
Proof. intros nd Hnd. by constructor. Qed.

Lemma keeps_gets {A} (f : node → A) : keeps (gets f).
Proof. intros nd Hnd. by constructor. Qed.

Lemma keeps_await (c : command) : keeps (await c).
Proof.
  intros nd Hnd. unfold await. destruct (redisClient nd); constructor; try done.
  intros [r | e] nd' Hnd'; by constructor.
Qed.

Lemma keeps_modify (f : node → node) :
  (∀ nd, timers_ok nd → timers_ok (f nd)) → keeps (modify f).
Proof. intros Hf nd Hnd. constructor. by apply Hf. Qed.

Lemma keeps_clear (t : nat) : keeps (modify (clear_timer t)).
Proof.
  apply keeps_modify. intros nd Hnd x Hx. simpl in *.
  apply list_elem_of_filter in Hx as [_ Hx]. by apply Hnd.
Qed.

Ltac keeps_tac :=
  repeat first
    [ assumption
    | apply keeps_bind | apply keeps_try | apply keeps_ret | apply keeps_gets
    | apply keeps_await | apply keeps_clear
    | apply keeps_modify; intros ? Hkeep; exact Hkeep
    | match goal with
      | |- ∀ _, _ => intro
      | |- keeps (if ?b then _ else _) => destruct b
      | |- keeps (match ?x with _ => _ end) => destruct x
      end ].

Lemma keeps_startStatusMonitoring : keeps startStatusMonitoring.
Proof.
  intros nd Hnd. unfold startStatusMonitoring, bind, gets, modify. simpl.
  destruct (statusInterval nd) as [t|] eqn:Ht; simpl; constructor.
  - intros x Hx. simpl in *.
    rewrite (filter_all_out t) in Hx.
    + apply list_elem_of_singleton in Hx. by subst x.
    + intros y Hy. apply Hnd in Hy. congruence.
  - intros x Hx. simpl in *. rewrite (no_handle_no_timer nd Hnd Ht) in Hx.
    apply list_elem_of_singleton in Hx. by subst x.
Qed.

Lemma keeps_handlers (C : consts) (msg : gmap string jsval) (message : string) :
  keeps (on_input C msg) ∧ keeps (on_tick C) ∧ keeps (on_close C) ∧
  keeps initRedis ∧ keeps (on_redis_error message) ∧ keeps on_redis_connect.
Proof.
  pose proof keeps_startStatusMonitoring.
  unfold on_input, on_tick, on_close, initRedis, checkLeadership,
    refreshLeadership, on_redis_error, on_redis_connect,
    node_error, node_warn, node_log, node_status, node_send.
  repeat split; keeps_tac.
Qed.

Lemma settle_ok (p : proc) (others : list task) (r : Res unit) :
  Forall task_keeps others → Keeps r → proc_ok (settle p others r).
Proof.
  intros Ho Hr. destruct Hr as [a nd Hnd | e nd Hnd | c nd k Hnd Hk]; simpl.
  - by split.
  - by split.
  - split; [done |]. apply Forall_app. split; [done |].
    apply Forall_singleton. intros o nd' Hnd'. by apply Hk.
Qed.

Lemma launch_ok (m : consts → M unit) (p : proc) :
  (∀ C, keeps (m C)) → proc_ok p → proc_ok (launch m p).
Proof.
  intros Hm [Hnd Hts]. unfold launch. apply settle_ok; [done |]. by apply Hm.
Qed.

Lemma insert_launch_ok (m : consts → M unit) (i : nat) (p : proc) (ps : list proc) :
  (∀ C, keeps (m C)) → Forall proc_ok ps → ps !! i = Some p →
  Forall proc_ok (<[i := launch m p]> ps).
Proof.
  intros Hm Hall Hp. apply Forall_insert; [done |].
  apply launch_ok; [done |]. by eapply Forall_lookup_1 in Hall.
Qed.

Lemma step_ok (l : label) (s s' : system) :
  Forall proc_ok (s_procs s) → step l s = Some s' → Forall proc_ok (s_procs s').
Proof.
  intros Hall Hstep.
  destruct l as [d | i j fault | i msg | i | i | i | i message | i];
    simpl in Hstep; [by simplify_eq | ..];
    destruct (s_procs s !! i) as [p|] eqn:Hp; simpl in Hstep; try done.
  - destruct (p_tasks p !! j) as [t|] eqn:Ht; simpl in Hstep; [| done].
    destruct (serve fault (s_store s) (t_cmd t)) as [o st']. simplify_eq/=.
    apply Forall_insert; [done |].
    eapply Forall_lookup_1 in Hall as [Hnd Hts]; [| exact Hp].
    unfold resume. apply settle_ok.
    + by apply Forall_delete.
    + eapply Forall_lookup_1 in Hts; [| exact Ht]. apply Hts.
      unfold before_resume. by destruct (t_cmd t), o.
  - simplify_eq/=. apply insert_launch_ok; [| done..].
    intros C. apply (keeps_handlers C msg "").
  - destruct (timers (p_node p)); [done |]. simplify_eq/=.
    apply insert_launch_ok; [| done..]. intros C. apply (keeps_handlers C ∅ "").
  - simplify_eq/=. apply insert_launch_ok; [| done..].
    intros C. apply (keeps_handlers C ∅ "").
  - simplify_eq/=. apply insert_launch_ok; [| done..].
    intros C. apply (keeps_handlers C ∅ "").
  - simplify_eq/=. apply insert_launch_ok; [| done..].
    intros C. apply (keeps_handlers C ∅ message).
  - simplify_eq/=. apply insert_launch_ok; [| done..].
    intros C. apply (keeps_handlers C ∅ "").
Qed.

Lemma exec_ok (ls : list label) (s s' : system) :
  Forall proc_ok (s_procs s) → exec ls s = Some s' → Forall proc_ok (s_procs s').
Proof.
  revert s. induction ls as [|l ls IH]; intros s Hall Hex; simpl in Hex.
  - by simplify_eq.
  - destruct (step l s) as [s1|] eqn:Hstep; simpl in Hex; [| done].
    eauto using step_ok.
Qed.

(** In every state reached from freshly constructed nodes, whatever the
    labels, every running timer of a node is the one its [statusInterval]
    refers to. *)
Lemma timers_ok_reachable
    (cfgs : list (config * environment)) (st : store) (ls : list label) (s' : system) :
  exec ls (System st ((λ c, new_proc c.1 c.2) <$> cfgs)) = Some s' →
  Forall (λ p, timers_ok (p_node p)) (s_procs s').
Proof.
  intros Hex.
  assert (Hall : Forall proc_ok (s_procs s')).
  { eapply exec_ok; [| exact Hex]. simpl.
    apply Forall_fmap, Forall_forall. intros c _. split; [| done].
    intros t Ht. by apply elem_of_nil in Ht. }
  eapply Forall_impl; [exact Hall |]. by intros p [Hp _].
Qed.

(** ** Release *)

Lemma live_remove (st : store) (k : string) : live (remove st k) k = None.
Proof. unfold live, remove. simpl. by rewrite lookup_delete_eq. Qed.

Lemma close_store (C : consts) (nd : node) (st : store) :
  redisClient nd = true → isConnected nd = true →
  (run_atomic (on_close C nd) st).1 =
  if decide (holder st (lockKey C) = Some (hostname C))
  then remove st (lockKey C) else st.
Proof.
  intros Hcl Hc.
  remember (run_atomic (on_close C nd) st) as res eqn:E.
  unfold_handlers. run_cases E; subst res; simpl.
  all: case_decide as Hd; str_eqs; unfold holder in Hd; use_live;
       simplify_eq/=; try done.
  all: exfalso; congruence.
Qed.

(** C5. Release, as the close handler of a connected node performs it with
    nothing else touching the store in between: when the lock key is held by
    this node's identity the key is deleted; when it is held by another
    identity or by nobody the store stays exactly as it was and no error is
    logged; and a further release under the same identity (by this or any
    other connected node) changes nothing more. *)
Theorem release_on_close (C : consts) (nd : node) (st : store) :
  redisClient nd = true → isConnected nd = true →
  let st' := fst (run_atomic (on_close C nd) st) in
  let r := snd (run_atomic (on_close C nd) st) in
  finished r = true ∧
  (holder st (lockKey C) = Some (hostname C) →
     st' = remove st (lockKey C) ∧ holder st' (lockKey C) = None ∧
     logs (final_node r) = logs nd ++ [(LLog, "Released leadership lock")]) ∧
  (holder st (lockKey C) ≠ Some (hostname C) →
     st' = st ∧ logs (final_node r) = logs nd) ∧
  (∀ nd2, redisClient nd2 = true → isConnected nd2 = true →
     fst (run_atomic (on_close C nd2) st') = st').
Proof.
  intros Hcl Hc st' r.
  assert (Hst : st' = if decide (holder st (lockKey C) = Some (hostname C))
                      then remove st (lockKey C) else st)
    by (by apply close_store).
  split; [| split; [| split]].
  - subst r. remember (run_atomic (on_close C nd) st) as res eqn:E.
    unfold_handlers. run_cases E; by subst res.
  - intros Hh. rewrite decide_True in Hst by done. split; [done |].
    split; [rewrite Hst; unfold holder; by rewrite live_remove |].
    subst r. remember (run_atomic (on_close C nd) st) as res eqn:E.
    unfold_handlers. run_cases E; subst res; simpl; try done.
    all: exfalso; str_eqs; use_live; simplify_eq/=; congruence.
  - intros Hh. rewrite decide_False in Hst by done. split; [done |].
    subst r. remember (run_atomic (on_close C nd) st) as res eqn:E.
    unfold_handlers. run_cases E; subst res; simpl; try done.
    all: exfalso; str_eqs; use_live; simplify_eq/=; congruence.
  - intros nd2 Hcl2 Hc2. rewrite close_store by done.
    destruct (decide (holder st' (lockKey C) = Some (hostname C))) as [Hd |]; [| done].
    exfalso. rewrite Hst in Hd.
    destruct (decide (holder st (lockKey C) = Some (hostname C))); [| done].
    unfold holder in Hd. by rewrite live_remove in Hd.
Qed.

Lemma release_on_close_witness :
  redisClient ready_node = true ∧ isConnected ready_node = true ∧
  holder (held_store "host-a" 5000) "nodered:leader" = Some "host-a" ∧
  fst (run_atomic (on_close demo_consts ready_node) (held_store "host-a" 5000))
  = remove (held_store "host-a" 5000) "nodered:leader".
Proof.
  assert (Hh : holder (held_store "host-a" 5000) "nodered:leader" = Some "host-a")
    by reflexivity.
  split; [reflexivity | split; [reflexivity | split; [exact Hh |]]].
  destruct (release_on_close demo_consts ready_node (held_store "host-a" 5000)
              eq_refl eq_refl) as (_ & H & _).
  exact (proj1 (H Hh)).
Defined.

(** ** Store failures during a trigger *)

(** C2, as the code has it.  For a connected node: a conditional set that is
    rejected makes [checkLeadership] log an error and answer [false]; a
    rejected command of [refreshLeadership] makes it log an error and answer
    [false]; there is no third answer.  When every command a trigger issues
    is rejected (the store cannot be reached at all), the trigger ends with
    nothing sent on either output, the error logged and the status set to
    error. *)
Theorem failure_is_not_leading
    (C : consts) (msg : gmap string jsval) (nd : node) :
  redisClient nd = true → isConnected nd = true →
  (∀ w m, ev_out <$> fst (run (checkLeadership C nd) [w]) = [Reject m] →
     snd (run (checkLeadership C nd) [w]) =
     Val false (add_log LError ("Leader check failed: " +:+ m)
                  (set_isConnected (w_conn w) nd))) ∧
  (∀ ws, (2 ≤ length ws)%nat →
     Exists (λ e, is_reply (ev_out e) = false) (fst (run (refreshLeadership C nd) ws)) →
     ∃ nd' m, snd (run (refreshLeadership C nd) ws) = Val false nd' ∧
              logs nd' = logs nd ++ [(LError, "Leader refresh failed: " +:+ m)]) ∧
  (∀ ws, (3 ≤ length ws)%nat →
     Forall (λ e, is_reply (ev_out e) = false) (fst (run (on_input C msg nd) ws)) →
     ∃ nd', snd (run (on_input C msg nd) ws) = Val tt nd' ∧
            sent nd' = sent nd ∧
            status nd' = Some (Status "red" "ring" "error") ∧
            ∃ m, last (logs nd') = Some (LError, "Leader election failed: " +:+ m)).
Proof.
  intros Hcl Hc. split; [| split].
  - intros w m.
    remember (run (checkLeadership C nd) [w]) as res eqn:E.
    unfold_handlers. run_cases E; subst res; simpl; intros; simplify_eq/=; done.
  - intros ws Hlen.
    remember (run (refreshLeadership C nd) ws) as res eqn:E.
    unfold_handlers. run_cases E; subst res; simpl in *; try lia; intros Hex.
    all: repeat match goal with
         | H : Exists _ (_ :: _) |- _ => apply Exists_cons in H as [H | H]
         | H : Exists _ [] |- _ => by apply Exists_nil in H
         end; simplify_eq/=.
    all: eexists _, _; split; [reflexivity | reflexivity].
  - intros ws Hlen.
    remember (run (on_input C msg nd) ws) as res eqn:E.
    unfold_handlers. run_cases E; subst res; simpl in *; try lia; intros Hall.
    all: split_foralls; simplify_eq/=.
    all: eexists; split; [reflexivity |]; simpl; repeat split; try done.
    all: rewrite last_snoc; eauto.
Qed.

Lemma failure_is_not_leading_witness :
  redisClient online_node = true ∧ isConnected online_node = true ∧
  ∃ nd', snd (run (on_input demo_consts demo_msg online_node)
                [down empty_store; down empty_store; down empty_store]) = Val tt nd' ∧
         sent nd' = sent online_node ∧
         status nd' = Some (Status "red" "ring" "error").
Proof.
  split; [reflexivity | split; [reflexivity |]].
  destruct (failure_is_not_leading demo_consts demo_msg online_node eq_refl eq_refl)
    as (_ & _ & H).
  destruct (H [down empty_store; down empty_store; down empty_store])
    as (nd' & Hr & Hs & Ht & _).
  - simpl. lia.
  - vm_compute. repeat constructor.
  - exists nd'. auto.
Defined.

(** A trigger whose conditional set is rejected and whose later reads are
    served: it is sent on the follower output when another identity holds the
    key, and on the leader output when its own identity holds it.  The same
    happens when the store itself refuses the conditional set, as it does
    for a TTL of [-5]. *)
Lemma failed_set_still_follows :
  let r := run (on_input demo_consts demo_msg online_node)
             [down (held_store "host-b" 5000); quiet (held_store "host-b" 5000);
              quiet (held_store "host-b" 5000)] in
  let r' := run (on_input demo_consts demo_msg online_node)
              [down (held_store "host-a" 5000); quiet (held_store "host-a" 5000);
               quiet (held_store "host-a" 5000)] in
  let r'' := run (on_input (Consts "nodered:leader" (-5) "host-a") demo_msg online_node)
               [quiet (held_store "host-b" 5000); quiet (held_store "host-b" 5000);
                quiet (held_store "host-b" 5000)] in
  head (ev_out <$> fst r) = Some (Reject "connection failure") ∧
  sent (final_node (snd r)) =
    [(None, Some (tag_follower demo_consts (RStr "host-b") demo_msg))] ∧
  head (ev_out <$> fst r') = Some (Reject "connection failure") ∧
  sent (final_node (snd r')) = [(Some (tag_leader demo_consts demo_msg), None)] ∧
  head (ev_out <$> fst r'') = Some (Reject "ERR invalid expire time in 'set' command") ∧
  sent (final_node (snd r'')) =
    [(None, Some (tag_follower demo_consts (RStr "host-b") demo_msg))].
Proof. repeat split; vm_compute; reflexivity. Qed.

(** ** Startup and the configured TTL *)

(** C6, as the code has it.  Whatever TTL is configured, startup with a
    store that accepts the connection raises no error and leaves the node
    connected with its monitor running, and the first trigger issues the
    conditional set with the TTL the constructor computed.  That TTL is
    never zero: a configured value that parses to zero or does not parse is
    replaced by 10, and a positive value is kept as it is. *)
Theorem startup_takes_any_ttl
    (cfg : config) (env : environment) (st : store) (msg : gmap string jsval) :
  let C := ClusterLeaderNode cfg env in
  (∃ p, exec [Start 0; Serve 0 0 false; Input 0 msg]%nat (System st [new_proc cfg env])
        = Some (System st [p]) ∧
        Ready (p_node p) ∧ errors (p_node p) = [] ∧
        t_cmd <$> p_tasks p = [SET_NX_EX (lockKey C) (hostname C) (lockTTL C)]) ∧
  lockTTL C ≠ 0 ∧
  (∀ n, parseInt (cfg_lockTTL cfg) = Some n → 0 < n → lockTTL C = n) ∧
  (parseInt (cfg_lockTTL cfg) = None ∨ parseInt (cfg_lockTTL cfg) = Some 0 →
   lockTTL C = 10).
Proof.
  intros C. split; [| split; [| split]].
  - eexists. split; [reflexivity |]. simpl. repeat split.
    exists 0%nat. split; [done |]. apply list_elem_of_here.
  - subst C. simpl. unfold parseInt_or.
    destruct (parseInt (cfg_lockTTL cfg)) as [n|]; [| done].
    destruct (n =? 0) eqn:E; [done | lia].
  - intros n Hn Hpos. subst C. simpl. unfold parseInt_or. rewrite Hn.
    destruct (n =? 0) eqn:E; [lia | done].
  - intros [H | H]; subst C; simpl; unfold parseInt_or; by rewrite H.
Qed.

Lemma startup_takes_any_ttl_witness :
  parseInt (cfg_lockTTL (Config None (JStr "30"))) = Some 30 ∧
  lockTTL (ClusterLeaderNode (Config None (JStr "30")) demo_env) = 30.
Proof.
  split; [reflexivity |].
  destruct (startup_takes_any_ttl (Config None (JStr "30")) demo_env empty_store demo_msg)
    as (_ & _ & H & _).
  apply H; [reflexivity | lia].
Defined.

(** A node configured with TTL [-5] starts, becomes ready without any error
    and sends [-5] with its conditional set; a node configured with TTL [0]
    starts and becomes ready without any error as well (with TTL 10). *)
Lemma nonpositive_ttl_accepted :
  parseInt (JStr "-5") = Some (-5) ∧
  (∃ p, exec [Start 0; Serve 0 0 false; Input 0 demo_msg]%nat
          (System empty_store [new_proc (Config None (JStr "-5")) demo_env])
        = Some (System empty_store [p]) ∧
        Ready (p_node p) ∧ errors (p_node p) = [] ∧
        t_cmd <$> p_tasks p = [SET_NX_EX "nodered:leader" "host-a" (-5)]) ∧
  parseInt (JStr "0") = Some 0 ∧
  (∃ p, exec [Start 0; Serve 0 0 false]%nat
          (System empty_store [new_proc (Config None (JStr "0")) demo_env])
        = Some (System empty_store [p]) ∧
        Ready (p_node p) ∧ errors (p_node p) = [] ∧
        lockTTL (p_consts p) = 10).
Proof.
  split; [reflexivity |]. split; [| split; [reflexivity |]].
  - eexists. split; [reflexivity |]. repeat split.
    exists 0%nat. split; [done |]. apply list_elem_of_here.
  - eexists. split; [reflexivity |]. repeat split.
    exists 0%nat. split; [done |]. apply list_elem_of_here.
Qed.

(** ** What a trigger emits *)

Lemma tag_leader_fields (C : consts) (msg : gmap string jsval) :
  tag_leader C msg !! "isLeader" = Some (JBool true) ∧
  tag_leader C msg !! "leaderHost" = Some (JStr (hostname C)).
Proof.
  unfold tag_leader. split.
  - rewrite lookup_insert_ne by done. apply lookup_insert_eq.
  - apply lookup_insert_eq.
Qed.

Lemma tag_follower_fields (C : consts) (r : reply) (msg : gmap string jsval) :
  tag_follower C r msg !! "isLeader" = Some (JBool false) ∧
  tag_follower C r msg !! "leaderHost" = Some (reply_val r) ∧
  tag_follower C r msg !! "followerHost" = Some (JStr (hostname C)).
Proof.
  unfold tag_follower. repeat split.
  - do 2 (rewrite lookup_insert_ne by done). apply lookup_insert_eq.
  - rewrite lookup_insert_ne by done. apply lookup_insert_eq.
  - apply lookup_insert_eq.
Qed.

Lemma tag_passes_through (C : consts) (r : reply) (msg : gmap string jsval) (f : string) :
  f ≠ "isLeader" → f ≠ "leaderHost" → f ≠ "followerHost" →
  tag_leader C msg !! f = msg !! f ∧ tag_follower C r msg !! f = msg !! f.
Proof.
  intros H1 H2 H3. unfold tag_leader, tag_follower.
  by rewrite !lookup_insert_ne.
Qed.

(** C4, as the code has it.  A trigger processed by a connected node, none
    of whose commands fails, sends exactly one array: either the message
    tagged [isLeader = true] and [leaderHost] = own identity on the first
    output only, or the message tagged [isLeader = false], [leaderHost] =
    whatever the last holder read answered (null when the key is gone by
    then) and [followerHost] = own identity on the second output only.  When
    nothing else touches the store during the trigger, the leader output is
    sent if the key is free or held by the own identity, and otherwise the
    follower output names the other holder. *)
Theorem trigger_emits_once
    (C : consts) (msg : gmap string jsval) (nd : node) :
  redisClient nd = true → isConnected nd = true →
  (∀ ws, (3 ≤ length ws)%nat →
     Forall (λ w, w_conn w = true) ws →
     Forall (λ e, is_reply (ev_out e) = true) (fst (run (on_input C msg nd) ws)) →
     ∃ nd' out, snd (run (on_input C msg nd) ws) = Val tt nd' ∧
       sent nd' = sent nd ++ [out] ∧
       (out = (Some (tag_leader C msg), None) ∨
        ∃ g r, last (fst (run (on_input C msg nd) ws)) = Some g ∧
               ev_cmd g = GET (lockKey C) ∧ ev_out g = Reply r ∧
               out = (None, Some (tag_follower C r msg)))) ∧
  (∀ st, 0 < lockTTL C →
     ∃ nd', snd (run_atomic (on_input C msg nd) st) = Val tt nd' ∧
       sent nd' = sent nd ++
         [match holder st (lockKey C) with
          | None => (Some (tag_leader C msg), None)
          | Some h => if String.eqb h (hostname C)
                      then (Some (tag_leader C msg), None)
                      else (None, Some (tag_follower C (RStr h) msg))
          end]) ∧
  (tag_leader C msg !! "isLeader" = Some (JBool true) ∧
   tag_leader C msg !! "leaderHost" = Some (JStr (hostname C))) ∧
  (∀ r, tag_follower C r msg !! "isLeader" = Some (JBool false) ∧
        tag_follower C r msg !! "leaderHost" = Some (reply_val r) ∧
        tag_follower C r msg !! "followerHost" = Some (JStr (hostname C))).
Proof.
  intros Hcl Hc.
  split; [| split; [| split; [apply tag_leader_fields |
                              intros r; apply tag_follower_fields]]].
  - intros ws Hlen Hconn.
    remember (run (on_input C msg nd) ws) as res eqn:E.
    destruct ws as [|w1 [|w2 [|w3 ws]]]; simpl in Hlen; try lia.
    split_foralls.
    unfold_handlers. run_cases E; subst res; simpl in *; intros Hall.
    all: split_foralls; simplify_eq/=.
    all: eexists _, _; split; [reflexivity |]; split; [reflexivity |].
    all: try (by left).
    all: right; eexists _, _; split; [reflexivity |]; done.
  - intros st Httl.
    remember (run_atomic (on_input C msg nd) st) as res eqn:E.
    unfold_handlers. run_cases E; subst res; simpl in *; try lia.
    all: eexists; split; [reflexivity |]; unfold holder; use_live; norm; try done.
    all: simplify_eq/=; norm; done.
Qed.

Lemma trigger_emits_once_witness :
  redisClient online_node = true ∧ isConnected online_node = true ∧
  0 < lockTTL demo_consts ∧
  ∃ nd', snd (run_atomic (on_input demo_consts demo_msg online_node)
                (held_store "host-b" 5000)) = Val tt nd' ∧
         sent nd' = [(None, Some (tag_follower demo_consts (RStr "host-b") demo_msg))].
Proof.
  split; [reflexivity | split; [reflexivity | split; [reflexivity |]]].
  destruct (trigger_emits_once demo_consts demo_msg online_node eq_refl eq_refl)
    as (_ & H & _).
  destruct (H (held_store "host-b" 5000) eq_refl) as (nd' & Hr & Hs).
  exists nd'. split; [exact Hr | exact Hs].
Defined.

(** A trigger on a connected node, all three commands served: the
    conditional set is refused because [host-b] holds the key, the lease
    runs out, and both holder reads answer nil.  The message goes out on the
    follower output with a null [leaderHost]. *)
Lemma follower_without_leader :
  let ws := [quiet (held_store "host-b" 5000);
             quiet (elapse 6000 (held_store "host-b" 5000));
             quiet (elapse 6000 (held_store "host-b" 5000))] in
  let r := run (on_input demo_consts demo_msg online_node) ws in
  Forall (λ w, w_fault w = false ∧ w_conn w = true) ws ∧
  Forall (λ e, is_reply (ev_out e) = true) (fst r) ∧
  commands (fst r) = [SET_NX_EX "nodered:leader" "host-a" 10;
                      GET "nodered:leader"; GET "nodered:leader"] ∧
  ∃ m, sent (final_node (snd r)) = [(None, Some m)] ∧
       m !! "isLeader" = Some (JBool false) ∧
       m !! "leaderHost" = Some JNull ∧
       m !! "followerHost" = Some (JStr "host-a").
Proof.
  split; [repeat constructor |]. split; [vm_compute; repeat constructor |].
  split; [reflexivity |]. eexists. split; [reflexivity |]. by vm_compute.
Qed.

(** ** Renewal by the holder *)

Lemma live_put (st : store) (k : string) (e : entry) :
  live (put st k e) k = if alive (now st) e then Some e else None.
Proof. unfold live, put. simpl. by rewrite lookup_insert_eq. Qed.

Lemma live_elapse_put (st : store) (k h : string) (ttl d : Z) :
  live (elapse d (put st k (Entry h (Some (now st + 1000 * ttl))))) k =
  if Z.max 0 d <? 1000 * ttl
  then Some (Entry h (Some (now st + 1000 * ttl))) else None.
Proof.
  unfold live, elapse, put, alive. simpl. rewrite lookup_insert_eq. simpl.
  destruct (Z.ltb_spec (now st + Z.max 0 d) (now st + 1000 * ttl));
    destruct (Z.ltb_spec (Z.max 0 d) (1000 * ttl)); try done; lia.
Qed.

(** C3. A connected process is triggered while its own identity holds the
    lock key and the lease is still alive at each of the three commands of
    the call (whatever else happens in between): the conditional set is
    answered with nil, the holder read answers the caller's identity, a
    TTL refresh is issued and served, the message is sent on the leader
    output, and the lease now lasts a full TTL from the instant of the
    refresh: it is held at every instant less than [lockTTL] seconds later
    and gone after that.  A further call within that time meets the same
    conditions again. *)
Theorem holder_renews
    (C : consts) (msg : gmap string jsval) (nd : node) (w1 w2 w3 : world)
    (ws : list world) :
  redisClient nd = true → isConnected nd = true → 0 < lockTTL C →
  Forall (λ w, w_fault w = false ∧ w_conn w = true ∧
               holder (w_store w) (lockKey C) = Some (hostname C)) [w1; w2; w3] →
  let k := lockKey C in
  let until := now (w_store w3) + 1000 * lockTTL C in
  let s3 := put (w_store w3) k (Entry (hostname C) (Some until)) in
  ∃ nd',
    run (on_input C msg nd) (w1 :: w2 :: w3 :: ws) =
      ([Event (SET_NX_EX k (hostname C) (lockTTL C)) (Reply RNil)
          (w_store w1) (w_store w1);
        Event (GET k) (Reply (RStr (hostname C))) (w_store w2) (w_store w2);
        Event (EXPIRE k (lockTTL C)) (Reply (RInt 1)) (w_store w3) s3],
       Val tt nd') ∧
    sent nd' = sent nd ++ [(Some (tag_leader C msg), None)] ∧
    live s3 k = Some (Entry (hostname C) (Some until)) ∧
    (∀ d, d < 1000 * lockTTL C → holder (elapse d s3) k = Some (hostname C)) ∧
    (∀ d, 1000 * lockTTL C ≤ d → holder (elapse d s3) k = None).
Proof.
  intros Hcl Hc Httl Hws k until s3. split_foralls.
  repeat match goal with H : _ ∧ _ |- _ => destruct H as [? H] end.
  remember (run (on_input C msg nd) (w1 :: w2 :: w3 :: ws)) as res eqn:E.
  unfold_handlers. unfold holder in *.
  run_cases E; subst res; simplify_eq/=; str_eqs; z_eqs; try lia.
  all: subst s3 until k.
  all: repeat match goal with H : e_val _ = hostname _ |- _ => rewrite H in * end.
  all: try (exfalso; congruence).
  all: eexists; split; [reflexivity |]; split; [done |].
  all: rewrite live_put; unfold alive; simpl.
  all: split; [by case_match; z_eqs; [| lia] |].
  all: unfold holder; split; intros d Hd; rewrite live_elapse_put.
  all: case_match; z_eqs; try done; lia.
Qed.

Lemma holder_renews_witness :
  redisClient online_node = true ∧ isConnected online_node = true ∧
  0 < lockTTL demo_consts ∧
  holder (held_store "host-a" 5000) "nodered:leader" = Some "host-a" ∧
  ∃ nd', snd (run (on_input demo_consts demo_msg online_node)
                [quiet (held_store "host-a" 5000);
                 quiet (elapse 1000 (held_store "host-a" 5000));
                 quiet (elapse 2000 (held_store "host-a" 5000))]) = Val tt nd' ∧
         sent nd' = [(Some (tag_leader demo_consts demo_msg), None)].
Proof.
  split; [reflexivity | split; [reflexivity | split; [reflexivity |]]].
  split; [reflexivity |].
  destruct (holder_renews demo_consts demo_msg online_node
              (quiet (held_store "host-a" 5000))
              (quiet (elapse 1000 (held_store "host-a" 5000)))
              (quiet (elapse 2000 (held_store "host-a" 5000))) []
              eq_refl eq_refl eq_refl) as (nd' & Hr & Hs & _).
  - repeat constructor.
  - exists nd'. rewrite Hr. split; [reflexivity | exact Hs].
Defined.

(** ** A follower output without a leader *)

(** C10. Two nodes on an empty store; [host-a] acquires the lease and the
    conditional set of [host-b]'s trigger is refused while [host-a] holds
    it.  If the lease then runs out, or [host-a] shuts down and deletes it,
    before [host-b] reads the holder, [host-b] sends its message on the
    follower output with [isLeader = false] and a null [leaderHost]. *)
Theorem follower_may_name_no_leader :
  (holder_after "nodered:leader" (exec b_refused two_nodes) = Some (Some "host-a") ∧
   pending_of 1 (exec b_refused two_nodes) = Some [GET "nodered:leader"] ∧
   sent_by 1 (exec b_refused two_nodes) = Some []) ∧
  sent_by 1 (exec race_by_expiry two_nodes)
    = Some [(None, Some (tag_follower host_b RNil demo_msg))] ∧
  sent_by 1 (exec race_by_release two_nodes)
    = Some [(None, Some (tag_follower host_b RNil demo_msg))] ∧
  tag_follower host_b RNil demo_msg !! "isLeader" = Some (JBool false) ∧
  tag_follower host_b RNil demo_msg !! "leaderHost" = Some JNull.
Proof.
  repeat split; vm_compute; reflexivity.
Qed.

(** ** Mutual exclusion among concurrent calls *)

Lemma holder_live (st : store) (k w : string) :
  holder st k = Some w → ∃ e, live st k = Some e ∧ e_val e = w.
Proof.
  unfold holder. destruct (live st k) as [e|]; [| done].
  intros [= <-]. eauto.
Qed.

Lemma call_loses (key w : string) (b : Z) (c : proc * gmap string jsval) :
  0 ≤ b → caller key b c → w ≠ hostname (p_consts c.1) →
  Follower key w (follower_out (p_consts c.1) w c.2)
    (launch (λ C, on_input C c.2) c.1).
Proof.
  destruct c as [[C nd ts] m]. intros Hb (Ht & Hs & Hcl & Hc & Hk & Httl) Hw.
  simpl in *. subst ts key. unfold launch. simpl.
  assert (Hpos : (lockTTL C <=? 0) = false) by (apply Z.leb_gt; lia).
  unfold_handlers. norm.
  eapply F_step; [reflexivity | |].
  - intros st Hh. apply holder_live in Hh as (e & He & _). by norm.
  - intros st Hh. apply holder_live in Hh as (e & He & Hv). unfold resume. norm.
    clear st e He Hv.
    assert (Hne : String.eqb w (hostname C) = false) by by apply String.eqb_neq.
    eapply F_step; [reflexivity | |].
    + intros st Hh. apply holder_live in Hh as (e & He & _). by norm.
    + intros st Hh. apply holder_live in Hh as (e & He & Hv). unfold resume. norm.
      rewrite Hv, Hne. norm. clear st e He Hv.
      eapply F_step; [reflexivity | |].
      * intros st Hh. apply holder_live in Hh as (e & He & _). by norm.
      * intros st Hh. apply holder_live in Hh as (e & He & Hv). unfold resume. norm.
        apply F_done; [done |]. simpl. by rewrite Hs, Hv.
Qed.

Lemma call_wins (key : string) (b : Z) (c : proc * gmap string jsval) (st : store) :
  0 ≤ b → caller key b c → holder st key = None →
  ∃ t, p_tasks (launch (λ C, on_input C c.2) c.1) = [t] ∧
       serve false st (t_cmd t) =
         (Reply (RStr "OK"),
          put st key (Entry (hostname (p_consts c.1))
                        (Some (now st + 1000 * lockTTL (p_consts c.1))))) ∧
       p_tasks (resume (launch (λ C, on_input C c.2) c.1) 0 t (Reply (RStr "OK"))) = [] ∧
       sent (p_node (resume (launch (λ C, on_input C c.2) c.1) 0 t (Reply (RStr "OK"))))
         = [leader_out (p_consts c.1) c.2].
Proof.
  destruct c as [[C nd ts] m]. intros Hb (Ht & Hs & Hcl & Hc & Hk & Httl) Hh.
  simpl in *. subst ts key. unfold launch. simpl.
  assert (Hpos : (lockTTL C <=? 0) = false) by (apply Z.leb_gt; lia).
  assert (Hl : live st (lockKey C) = None).
  { unfold holder in Hh. by destruct (live st (lockKey C)). }
  unfold_handlers. norm. eexists. split; [reflexivity |]. norm.
  split; [done |]. unfold resume. norm. by rewrite Hs.
Qed.

Lemma delay_nonneg (ls : list label) : 0 ≤ delay ls.
Proof. induction ls as [|[] ls IH]; simpl; lia. Qed.

Lemma holder_elapse_none (st : store) (k : string) (d : Z) :
  holder st k = None → holder (elapse d st) k = None.
Proof.
  unfold holder, live, elapse, alive. simpl.
  destruct (keys st !! k) as [[v [dl|]]|]; simpl; try done.
  destruct (Z.ltb_spec (now st) dl); [done |].
  destruct (Z.ltb_spec (now st + Z.max 0 d) dl); [lia | done].
Qed.

Section Race.

Variable key : string.
Variable cs : list (proc * gmap string jsval).

Lemma won_holder (i : nat) (w : string) (b : Z) (s : system) :
  0 ≤ b → Won key cs i w b s → holder (s_store s) key = Some w.
Proof.
  intros Hb (_ & (dl & Hk & Hdl) & _). unfold holder, live, alive. rewrite Hk. simpl.
  destruct (Z.ltb_spec (now (s_store s)) dl); [done | lia].
Qed.

Lemma won_step (i : nat) (w : string) (b : Z) (l : label) (s s' : system) :
  Won key cs i w b s → calm l → delay [l] ≤ b → step l s = Some s' →
  Won key cs i w (b - delay [l]) s'.
Proof.
  intros Hwon Hcalm Hb Hstep.
  destruct l as [d | j k fault | | | | | |]; simpl in Hcalm; try done.
  - simpl in Hstep. simplify_eq/=.
    destruct Hwon as (Hlen & (dl & Hk & Hdl) & Hps). split; [done |]. split; [| done].
    exists dl. simpl. split; [done | lia].
  - subst fault. simpl in Hstep, Hb.
    destruct (s_procs s !! j) as [q|] eqn:Hq; simpl in Hstep; [| done].
    destruct (p_tasks q !! k) as [t|] eqn:Ht; simpl in Hstep; [| done].
    assert (Hh : holder (s_store s) key = Some w) by (eapply won_holder; [| done]; lia).
    destruct Hwon as (Hlen & Hkey & Hps).
    destruct (cs !! j) as [c|] eqn:Hc.
    2:{ apply lookup_lt_Some in Hq. apply lookup_ge_None in Hc. lia. }
    destruct (Hps j c Hc) as (q' & Hq' & Hset). simplify_eq.
    unfold settled in Hset. destruct (decide (j = i)) as [-> | Hji].
    { destruct Hset as [Hnil _]. by rewrite Hnil in Ht. }
    inversion Hset as [p Hnil _ | p t' Hone Hkeep Hnext]; subst.
    { by rewrite Hnil in Ht. }
    rewrite Hone in Ht. destruct k; simplify_eq/=.
    specialize (Hkeep _ Hh). specialize (Hnext _ Hh).
    simpl in Hkeep, Hnext.
    destruct (exec_cmd (s_store s) (t_cmd t)) as [o st'] eqn:Hserve.
    simpl in *. simplify_eq/=. split; [simpl; by rewrite length_insert |].
    split; [by rewrite Z.sub_0_r |].
    intros j' c' Hc'. simpl. destruct (decide (j = j')) as [<- | Hjj].
    + exists (resume q 0 t o). rewrite list_lookup_insert_eq by by eapply lookup_lt_Some.
      split; [done |]. unfold settled. rewrite decide_False by done. by simplify_eq.
    + rewrite list_lookup_insert_ne by done. eauto.
Qed.

Lemma won_exec (i : nat) (w : string) (ls : list label) (b : Z) (s s' : system) :
  Won key cs i w b s → Forall calm ls → delay ls ≤ b → exec ls s = Some s' →
  Won key cs i w (b - delay ls) s'.
Proof.
  revert b s. induction ls as [|l ls IH]; intros b s Hwon Hcalm Hb Hex.
  - simpl in *. simplify_eq. by rewrite Z.sub_0_r.
  - simpl in Hex. destruct (step l s) as [s1|] eqn:Hstep; simpl in Hex; [| done].
    apply Forall_cons in Hcalm as [Hl Hcalm].
    pose proof (delay_nonneg ls) as Hnn.
    assert (Hd : delay (l :: ls) = delay [l] + delay ls).
    { destruct l; simpl; lia. }
    pose proof (won_step i w b l s s1 Hwon Hl ltac:(lia) Hstep) as Hwon1.
    rewrite Hd. replace (b - (delay [l] + delay ls)) with (b - delay [l] - delay ls) by lia.
    apply (IH _ s1); try done. lia.
Qed.

Variable b : Z.
Hypothesis callers : Forall (caller key b) cs.
Hypothesis distinct : NoDup ((λ c, hostname (p_consts c.1)) <$> cs).

Lemma open_step (l : label) (ls : list label) (s s' : system) :
  Open key cs s → calm l → delay (l :: ls) ≤ b → step l s = Some s' →
  Open key cs s' ∨ ∃ i c, cs !! i = Some c ∧ Won key cs i (hostname (p_consts c.1)) (delay ls) s'.
Proof.
  intros [Hprocs Hnone] Hcalm Hb Hstep.
  pose proof (delay_nonneg ls) as Hnn.
  destruct l as [d | j k fault | | | | | |]; simpl in Hcalm; try done.
  - left. simpl in Hstep. simplify_eq/=. split; [done |]. by apply holder_elapse_none.
  - right. subst fault. simpl in Hstep, Hb. rewrite Hprocs in Hstep.
    unfold start_calls in Hstep. rewrite list_lookup_fmap in Hstep.
    destruct (cs !! j) as [c|] eqn:Hc; simpl in Hstep; [| done].
    assert (Hcall : caller key b c).
    { eapply Forall_lookup_1 in callers; eauto. }
    assert (Hb0 : 0 ≤ b) by lia.
    destruct (call_wins key b c (s_store s) Hb0 Hcall Hnone)
      as (t & Hone & Hserve & Hnil & Hsent).
    rewrite Hone in Hstep. destruct k; simpl in Hstep; [| done].
    unfold serve in Hserve. rewrite Hserve in Hstep. simplify_eq/=.
    exists j, c. split; [done |]. split; [| split].
    + simpl. by rewrite length_insert, length_fmap.
    + simpl. eexists. rewrite lookup_insert_eq. split; [done |].
      destruct Hcall as (_ & _ & _ & _ & _ & Httl). lia.
    + intros j' c' Hc'. simpl. destruct (decide (j = j')) as [<- | Hjj].
      * eexists. rewrite list_lookup_insert_eq.
        2:{ rewrite length_fmap. by eapply lookup_lt_Some. }
        split; [done |]. unfold settled. rewrite decide_True by done. by simplify_eq.
      * rewrite list_lookup_insert_ne by done. rewrite list_lookup_fmap, Hc'. simpl.
        eexists. split; [done |]. unfold settled. rewrite decide_False by done.
        assert (Hcall' : caller key b c').
        { eapply Forall_lookup_1 in callers; eauto. }
        apply (call_loses key _ b c' Hb0 Hcall').
        intros Heq. apply Hjj.
        eapply (NoDup_lookup _ j j' _ distinct);
          rewrite list_lookup_fmap; [by rewrite Hc | by rewrite Hc', Heq].
Qed.

Lemma open_exec (ls : list label) (s s' : system) :
  Open key cs s → Forall calm ls → delay ls ≤ b → exec ls s = Some s' →
  Open key cs s' ∨ ∃ i c, cs !! i = Some c ∧ Won key cs i (hostname (p_consts c.1)) 0 s'.
Proof.
  revert s. induction ls as [|l ls IH]; intros s Hopen Hcalm Hb Hex.
  - left. simpl in Hex. by simplify_eq.
  - simpl in Hex. destruct (step l s) as [s1|] eqn:Hstep; simpl in Hex; [| done].
    apply Forall_cons in Hcalm as [Hl Hcalm].
    pose proof (delay_nonneg ls) as Hnn.
    assert (Hd : delay (l :: ls) = delay [l] + delay ls).
    { destruct l; simpl; lia. }
    assert (Hl0 : 0 ≤ delay [l]) by apply delay_nonneg.
    destruct (open_step l ls s s1 Hopen Hl Hb Hstep) as [Hopen1 | (i & c & Hc & Hwon)].
    + apply (IH s1); try done. lia.
    + right. exists i, c. split; [done |].
      pose proof (won_exec i _ ls _ s1 s' Hwon Hcalm ltac:(lia) Hex) as H.
      by rewrite Z.sub_diag in H.
Qed.

End Race.

(** The outcome of a race: one process holds the lease and has sent the
    leader array, every other process has sent the follower array made
    for that holder. *)
Lemma race_outcome
    (key : string) (cs : list (proc * gmap string jsval)) (st : store)
    (ls : list label) (s' : system) :
  cs ≠ [] →
  Forall (caller key (delay ls)) cs →
  NoDup ((λ c, hostname (p_consts c.1)) <$> cs) →
  holder st key = None →
  Forall calm ls →
  exec ls (System st (start_calls cs)) = Some s' →
  Forall (λ q, p_tasks q = []) (s_procs s') →
  ∃ i c, cs !! i = Some c ∧
    holder (s_store s') key = Some (hostname (p_consts c.1)) ∧
    ∀ j c', cs !! j = Some c' →
      ∃ q, s_procs s' !! j = Some q ∧
        sent (p_node q) =
          [if decide (j = i) then leader_out (p_consts c'.1) c'.2
           else follower_out (p_consts c'.1) (hostname (p_consts c.1)) c'.2].
Proof.
  intros Hne Hcallers Hdistinct Hnone Hcalm Hexec Hdone.
  assert (Hopen : Open key cs (System st (start_calls cs))) by done.
  destruct (open_exec key cs (delay ls) Hcallers Hdistinct ls
              (System st (start_calls cs)) s' Hopen Hcalm (Z.le_refl _) Hexec)
    as [[Hprocs Hn] | (i & c & Hc & Hwon)].
  - exfalso. destruct cs as [|c0 cs0]; [done |].
    apply Forall_cons in Hcallers as [Hc0 _].
    destruct (call_wins key (delay ls) c0 (s_store s') (delay_nonneg ls) Hc0 Hn)
      as (t & Hone & _).
    rewrite Hprocs in Hdone. simpl in Hdone.
    apply Forall_cons in Hdone as [Hnil _]. by rewrite Hnil in Hone.
  - exists i, c. split; [done |]. split; [by eapply won_holder |].
    destruct Hwon as (_ & _ & Hps).
    intros j c' Hc'. destruct (Hps j c' Hc') as (q & Hq & Hset).
    exists q. split; [done |]. unfold settled in Hset.
    destruct (decide (j = i)) as [-> | Hji]; [by destruct Hset |].
    inversion Hset as [p Hnil Hsent | p t Hone _ _]; subst; [done |].
    eapply Forall_lookup_1 in Hdone; [| exact Hq]. simpl in Hdone.
    by rewrite Hdone in Hone.
Qed.

(** C1, as the code has it.  Calls from processes with distinct identities
    are in flight against a lock key nobody holds.  As long as no command
    fails and the whole race takes less than every caller's TTL, however
    the serving of the commands is interleaved and however time passes in
    between, once all calls have ended there is one process that holds the
    lease and whose call has sent its message on the leader output only,
    tagged [isLeader = true] and [leaderHost] = its own identity; every other
    call has sent its message on the follower output only, tagged
    [isLeader = false], [leaderHost] = the identity of that one process and
    [followerHost] = its own identity.  All other fields of the messages are
    as they came in. *)
Theorem one_leader_among_callers
    (key : string) (cs : list (proc * gmap string jsval)) (st : store)
    (ls : list label) (s' : system) :
  cs ≠ [] →
  Forall (caller key (delay ls)) cs →
  NoDup ((λ c, hostname (p_consts c.1)) <$> cs) →
  holder st key = None →
  Forall calm ls →
  exec ls (System st (start_calls cs)) = Some s' →
  Forall (λ q, p_tasks q = []) (s_procs s') →
  ∃ i c, cs !! i = Some c ∧
    holder (s_store s') key = Some (hostname (p_consts c.1)) ∧
    ∀ j c', cs !! j = Some c' →
      ∃ q m, s_procs s' !! j = Some q ∧
        (∀ f, f ≠ "isLeader" → f ≠ "leaderHost" → f ≠ "followerHost" →
              m !! f = c'.2 !! f) ∧
        m !! "leaderHost" = Some (JStr (hostname (p_consts c.1))) ∧
        if decide (j = i)
        then sent (p_node q) = [(Some m, None)] ∧
             m !! "isLeader" = Some (JBool true)
        else sent (p_node q) = [(None, Some m)] ∧
             m !! "isLeader" = Some (JBool false) ∧
             m !! "followerHost" = Some (JStr (hostname (p_consts c'.1))).
Proof.
  intros Hne Hcallers Hdistinct Hnone Hcalm Hexec Hdone.
  destruct (race_outcome key cs st ls s' Hne Hcallers Hdistinct Hnone Hcalm
              Hexec Hdone) as (i & c & Hc & Hheld & Hall).
  exists i, c. split; [done |]. split; [done |].
  intros j c' Hc'. destruct (Hall j c' Hc') as (q & Hq & Hsent).
  destruct (decide (j = i)) as [-> | Hji].
  - assert (c' = c) by congruence. subst c'.
    exists q, (tag_leader (p_consts c.1) c.2). split; [done |].
    destruct (tag_leader_fields (p_consts c.1) c.2) as [Hl Hh].
    split; [| done].
    intros f H1 H2 H3.
    by destruct (tag_passes_through (p_consts c.1) RNil c.2 f H1 H2 H3).
  - exists q, (tag_follower (p_consts c'.1) (RStr (hostname (p_consts c.1))) c'.2).
    split; [done |].
    destruct (tag_follower_fields (p_consts c'.1)
                (RStr (hostname (p_consts c.1))) c'.2) as (Hl & Hh & Hf).
    split; [| done].
    intros f H1 H2 H3.
    by destruct (tag_passes_through (p_consts c'.1)
                   (RStr (hostname (p_consts c.1))) c'.2 f H1 H2 H3).
Qed.

Lemma one_leader_among_callers_witness :
  callers3 ≠ [] ∧
  Forall (caller "nodered:leader" (delay race3)) callers3 ∧
  NoDup ((λ c, hostname (p_consts c.1)) <$> callers3) ∧
  holder empty_store "nodered:leader" = None ∧
  Forall calm race3 ∧
  exec race3 (System empty_store (start_calls callers3)) = Some after_race3 ∧
  Forall (λ q, p_tasks q = []) (s_procs after_race3) ∧
  ∃ i c, callers3 !! i = Some c ∧
    holder (s_store after_race3) "nodered:leader" = Some (hostname (p_consts c.1)) ∧
    ∀ j c', callers3 !! j = Some c' →
      ∃ q m, s_procs after_race3 !! j = Some q ∧
        (∀ f, f ≠ "isLeader" → f ≠ "leaderHost" → f ≠ "followerHost" →
              m !! f = c'.2 !! f) ∧
        m !! "leaderHost" = Some (JStr (hostname (p_consts c.1))) ∧
        if decide (j = i)
        then sent (p_node q) = [(Some m, None)] ∧
             m !! "isLeader" = Some (JBool true)
        else sent (p_node q) = [(None, Some m)] ∧
             m !! "isLeader" = Some (JBool false) ∧
             m !! "followerHost" = Some (JStr (hostname (p_consts c'.1))).
Proof.
  assert (H1 : callers3 ≠ []) by done.
  assert (H2 : Forall (caller "nodered:leader" (delay race3)) callers3).
  { repeat constructor; simpl; lia. }
  assert (H3 : NoDup ((λ c, hostname (p_consts c.1)) <$> callers3)).
  { apply (bool_decide_unpack _). by vm_compute. }
  assert (H4 : holder empty_store "nodered:leader" = None) by reflexivity.
  assert (H5 : Forall calm race3) by (repeat constructor).
  assert (H6 : exec race3 (System empty_store (start_calls callers3)) = Some after_race3).
  { vm_compute. reflexivity. }
  assert (H7 : Forall (λ q, p_tasks q = []) (s_procs after_race3)).
  { vm_compute. repeat constructor. }
  repeat (split; [assumption |]).
  exact (one_leader_among_callers "nodered:leader" callers3 empty_store race3
           after_race3 H1 H2 H3 H4 H5 H6 H7).
Defined.

(** Two callers with distinct identities and a TTL of one second call
    against a free key; no command fails.  [host-a]'s conditional set is
    served and answered [OK]; more than a second passes; [host-b]'s
    conditional set is served, finds the key expired and is answered [OK] as
    well.  Both calls have ended, and both have sent on the leader output. *)
Lemma late_caller_leads_too :
  let after := exec slow_race (System empty_store (start_calls brief_callers)) in
  NoDup ((λ c, hostname (p_consts c.1)) <$> brief_callers) ∧
  Forall (caller "nodered:leader" 0) brief_callers ∧
  holder empty_store "nodered:leader" = None ∧
  Forall calm slow_race ∧
  pending_of 0 after = Some [] ∧ pending_of 1 after = Some [] ∧
  (∃ m, sent_by 0 after = Some [(Some m, None)] ∧
        m !! "isLeader" = Some (JBool true) ∧
        m !! "leaderHost" = Some (JStr "host-a")) ∧
  (∃ m, sent_by 1 after = Some [(Some m, None)] ∧
        m !! "isLeader" = Some (JBool true) ∧
        m !! "leaderHost" = Some (JStr "host-b")) ∧
  holder_after "nodered:leader" after = Some (Some "host-b").
Proof.
  intros after.
  split; [apply (bool_decide_unpack _); by vm_compute |].
  split; [repeat constructor; simpl; lia |].
  split; [reflexivity |].
  split; [repeat constructor |].
  split; [vm_compute; reflexivity |].
  split; [vm_compute; reflexivity |].
  split.
  { exists (tag_leader (Consts "nodered:leader" 1 "host-a") demo_msg).
    split; [vm_compute; reflexivity |]. split; reflexivity. }
  split.
  { exists (tag_leader (Consts "nodered:leader" 1 "host-b") demo_msg).
    split; [vm_compute; reflexivity |]. split; reflexivity. }
  vm_compute; reflexivity.
Qed.

(** ** Every race can run to its end *)

Lemma exec_app (l1 l2 : list label) (s : system) :
  exec (l1 ++ l2) s = s1 ← exec l1 s; exec l2 s1.
Proof.
  revert s. induction l1 as [|l l1 IH]; intros s; simpl; [done |].
  destruct (step l s); simpl; [apply IH | done].
Qed.

Lemma delay_app (l1 l2 : list label) : delay (l1 ++ l2) = delay l1 + delay l2.
Proof. induction l1 as [|[] l1 IH]; simpl; lia. Qed.

Lemma step_serve (i j : nat) (fault : bool) (s : system) (p : proc) (t : task) :
  s_procs s !! i = Some p → p_tasks p !! j = Some t →
  step (Serve i j fault) s =
  Some (System (snd (serve fault (s_store s) (t_cmd t)))
          (<[i := resume p j t (fst (serve fault (s_store s) (t_cmd t)))]> (s_procs s))).
Proof.
  intros Hp Ht. simpl. rewrite Hp. simpl. rewrite Ht. simpl.
  by destruct (serve fault (s_store s) (t_cmd t)).
Qed.

Lemma follower_finishes
    (key : string) (cs : list (proc * gmap string jsval)) (i : nat) (w : string)
    (j : nat) (out : option (gmap string jsval) * option (gmap string jsval))
    (q : proc) :
  Follower key w out q →
  ∀ s, Won key cs i w 0 s → s_procs s !! j = Some q →
  ∃ ls s', Forall calm ls ∧ delay ls = 0 ∧ exec ls s = Some s' ∧
           Won key cs i w 0 s' ∧
           (∃ q', s_procs s' !! j = Some q' ∧ p_tasks q' = []) ∧
           (∀ j', j' ≠ j → s_procs s' !! j' = s_procs s !! j').
Proof.
  induction 1 as [q Hnil Hsent | q t Hone Hkeep Hnext IH]; intros s Hwon Hq.
  - exists [], s. split; [constructor |]. do 3 (split; [done |]). split; [eauto | done].
  - assert (Hh : holder (s_store s) key = Some w) by by eapply won_holder.
    pose (o := fst (serve false (s_store s) (t_cmd t))).
    pose (s1 := System (s_store s) (<[j := resume q 0 t o]> (s_procs s))).
    assert (Hstep : step (Serve j 0 false) s = Some s1).
    { simpl. rewrite Hq. simpl. rewrite Hone. simpl.
      specialize (Hkeep _ Hh). unfold serve in Hkeep, o.
      destruct (exec_cmd (s_store s) (t_cmd t)) as [o' st'] eqn:E.
      simpl in *. by subst st'. }
    assert (Hwon1 : Won key cs i w 0 s1).
    { pose proof (won_step key cs i w 0 (Serve j 0 false) s s1 Hwon eq_refl
                    ltac:(simpl; lia) Hstep) as H. by rewrite Z.sub_0_r in H. }
    assert (Hq1 : s_procs s1 !! j = Some (resume q 0 t o)).
    { simpl. apply list_lookup_insert_eq. by eapply lookup_lt_Some. }
    destruct (IH _ Hh s1 Hwon1 Hq1) as (ls & s' & Hc & Hd & Hex & Hw & Hfin & Hoth).
    exists (Serve j 0 false :: ls), s'. split; [by constructor |].
    split; [done |]. split; [| split; [done | split; [done |]]].
    + change (exec (Serve j 0 false :: ls) s)
        with (step (Serve j 0 false) s ≫= exec ls).
      by rewrite Hstep.
    + intros j' Hj'. rewrite Hoth by done. simpl. by apply list_lookup_insert_ne.
Qed.

Lemma all_finish
    (key : string) (cs : list (proc * gmap string jsval)) (i : nat) (w : string)
    (n : nat) (s : system) :
  Won key cs i w 0 s →
  ∃ ls s', Forall calm ls ∧ delay ls = 0 ∧ exec ls s = Some s' ∧
           Won key cs i w 0 s' ∧
           ∀ j q, (j < n)%nat → s_procs s' !! j = Some q → p_tasks q = [].
Proof.
  revert s. induction n as [|n IH]; intros s Hwon.
  - exists [], s. split; [constructor |]. do 3 (split; [done |]). intros; lia.
  - destruct (IH s Hwon) as (ls & s1 & Hc & Hd & Hex & Hw1 & Hfin).
    destruct (s_procs s1 !! n) as [q|] eqn:Hq.
    2:{ exists ls, s1. do 4 (split; [done |]). intros j q0 Hj Hq0.
        destruct (decide (j = n)) as [-> | ?]; [congruence |].
        apply (Hfin j); [lia | done]. }
    pose proof Hw1 as (Hlen & _ & Hps).
    destruct (cs !! n) as [c|] eqn:Hcn.
    2:{ apply lookup_lt_Some in Hq. apply lookup_ge_None in Hcn. lia. }
    destruct (Hps n c Hcn) as (q' & Hq' & Hset). simplify_eq.
    unfold settled in Hset. destruct (decide (n = i)) as [-> | Hni].
    { exists ls, s1. do 4 (split; [done |]). intros j q0 Hj Hq0.
      destruct (decide (j = i)) as [-> | ?].
      - simplify_eq. by destruct Hset.
      - apply (Hfin j); [lia | done]. }
    destruct (follower_finishes key cs i w n _ q Hset s1 Hw1 Hq)
      as (ls2 & s2 & Hc2 & Hd2 & Hex2 & Hw2 & (q2 & Hq2 & Hnil) & Hoth).
    exists (ls ++ ls2), s2. split; [by apply Forall_app |].
    split; [rewrite delay_app; lia |].
    split; [rewrite exec_app, Hex; exact Hex2 |]. split; [done |].
    intros j q0 Hj Hq0. destruct (decide (j = n)) as [-> | Hjn].
    + by simplify_eq.
    + rewrite Hoth in Hq0 by done. apply (Hfin j); [lia | done].
Qed.

(** The calls of a race can all be brought to their end: some schedule that
    only serves commands does it. *)
Lemma race_can_finish
    (key : string) (cs : list (proc * gmap string jsval)) (st : store) :
  Forall (caller key 0) cs →
  NoDup ((λ c, hostname (p_consts c.1)) <$> cs) →
  holder st key = None →
  ∃ ls s', Forall calm ls ∧ delay ls = 0 ∧
           exec ls (System st (start_calls cs)) = Some s' ∧
           Forall (λ q, p_tasks q = []) (s_procs s').
Proof.
  intros Hcallers Hdistinct Hnone.
  destruct cs as [|c0 cs0] eqn:Ecs.
  { exists [], (System st []). split; [constructor |]. by repeat split. }
  rewrite <- Ecs in *.
  assert (Hc0 : caller key 0 c0).
  { rewrite Ecs in Hcallers. by apply Forall_cons in Hcallers as [? _]. }
  destruct (call_wins key 0 c0 st ltac:(lia) Hc0 Hnone) as (t & Hone & Hserve & Hnil & _).
  pose (s0 := System st (start_calls cs)).
  assert (Hp0 : s_procs s0 !! 0%nat = Some (launch (λ C, on_input C c0.2) c0.1)).
  { subst s0. by rewrite Ecs. }
  assert (Ht0 : p_tasks (launch (λ C, on_input C c0.2) c0.1) !! 0%nat = Some t)
    by by rewrite Hone.
  pose proof (step_serve 0 0 false s0 _ t Hp0 Ht0) as Hstep.
  replace (s_store s0) with st in Hstep by done. rewrite Hserve in Hstep.
  set (s1 := System _ _) in Hstep.
  assert (Hopen : Open key cs s0) by done.
  destruct (open_step key cs 0 Hcallers Hdistinct (Serve 0 0 false) [] s0 s1
              Hopen eq_refl ltac:(simpl; lia) Hstep)
    as [[Hprocs _] | (i & c & Hc & Hwon)].
  { exfalso. subst s1 s0. simpl in Hprocs. rewrite Ecs in Hprocs.
    simpl in Hprocs. injection Hprocs as Hp.
    rewrite Hp in Hnil. by rewrite Hnil in Hone. }
  simpl in Hwon.
  destruct (all_finish key cs i _ (length cs) s1 Hwon)
    as (ls & s' & Hcalm & Hd & Hex & Hw & Hfin).
  exists (Serve 0 0 false :: ls), s'. split; [by constructor |].
  split; [done |]. split.
  - change (step (Serve 0 0 false) s0 ≫= exec ls = Some s').
    by rewrite Hstep.
  - apply Forall_lookup. intros j q Hq. apply (Hfin j q); [| done].
    destruct Hw as (Hlen & _). rewrite <- Hlen. by eapply lookup_lt_Some.
Qed.

(** * Further properties of the handlers *)

(** * Further properties of the handlers *)

(** ** What a trigger can and cannot do *)

Lemma drop_own_length {A} (l x : list A) : drop (length l) (l ++ x) = x.
Proof. by rewrite drop_app_length. Qed.

Ltac new_sent :=
  unfold newly_sent in *; simpl in *;
  rewrite ?drop_own_length, ?drop_all in *.

Ltac in_list :=
  repeat match goal with
  | H : _ ∈ [] |- _ => by apply elem_of_nil in H
  | H : _ ∈ _ :: _ |- _ => apply elem_of_cons in H as [H | H]
  end.

(** X1. Whatever the store answers and however the connection flag moves,
    a trigger puts a message on the leader output only after the store has
    confirmed the node as leader. *)
Theorem leader_output_is_confirmed
    (C : consts) (msg : gmap string jsval) (nd : node) (ws : list world) :
  ∀ o m, o ∈ newly_sent nd (snd (run (on_input C msg nd) ws)) →
         o.1 = Some m →
         confirmed C (fst (run (on_input C msg nd) ws)).
Proof.
  remember (run (on_input C msg nd) ws) as res eqn:E.
  unfold_handlers. run_cases E; subst res; intros o m Ho Hm; new_sent.
  all: in_list; simplify_eq/=; str_eqs.
  all: first
    [ by (left; eexists; split; [apply list_elem_of_here | split; done])
    | right; eexists _, _, _;
      split; [apply list_elem_of_further, list_elem_of_here |];
      split; [done |]; split; [simpl; congruence |];
      split; [do 2 apply list_elem_of_further; apply list_elem_of_here |];
      split; done ].
Qed.

Lemma leader_output_is_confirmed_witness :
  (Some (tag_leader demo_consts demo_msg), None)
    ∈ newly_sent online_node
        (snd (run (on_input demo_consts demo_msg online_node) [quiet empty_store])) ∧
  confirmed demo_consts
    (fst (run (on_input demo_consts demo_msg online_node) [quiet empty_store])).
Proof.
  assert (Hin : (Some (tag_leader demo_consts demo_msg), None)
                  ∈ newly_sent online_node
                      (snd (run (on_input demo_consts demo_msg online_node)
                              [quiet empty_store])))
    by apply list_elem_of_here.
  split; [exact Hin |].
  exact (leader_output_is_confirmed demo_consts demo_msg online_node
           [quiet empty_store] _ _ Hin eq_refl).
Defined.

Lemma input_outputs
    (C : consts) (msg : gmap string jsval) (nd : node) (ws : list world) :
  newly_sent nd (snd (run (on_input C msg nd) ws)) = [] ∨
  newly_sent nd (snd (run (on_input C msg nd) ws)) = [(Some (tag_leader C msg), None)] ∨
  ∃ a, newly_sent nd (snd (run (on_input C msg nd) ws))
       = [(None, Some (tag_follower C a msg))].
Proof.
  remember (run (on_input C msg nd) ws) as res eqn:E.
  unfold_handlers. run_cases E; subst res; new_sent; eauto.
Qed.

(** X2. A trigger never sends twice and never on both outputs: whatever
    happens it adds at most one array to what the node has sent, with
    exactly one of the two slots filled; and the commands it issues are the
    conditional set, at most two holder reads and at most one refresh,
    never a delete. *)
Theorem trigger_sends_at_most_once
    (C : consts) (msg : gmap string jsval) (nd : node) (ws : list world) :
  let r := run (on_input C msg nd) ws in
  sent (final_node (snd r)) = sent nd ++ newly_sent nd (snd r) ∧
  (newly_sent nd (snd r) = [] ∨
   newly_sent nd (snd r) = [(Some (tag_leader C msg), None)] ∨
   ∃ a, newly_sent nd (snd r) = [(None, Some (tag_follower C a msg))]) ∧
  (length (fst r) ≤ 4)%nat ∧
  ∀ e, e ∈ fst r →
    ev_cmd e = SET_NX_EX (lockKey C) (hostname C) (lockTTL C) ∨
    ev_cmd e = GET (lockKey C) ∨ ev_cmd e = EXPIRE (lockKey C) (lockTTL C).
Proof.
  intros r. subst r.
  remember (run (on_input C msg nd) ws) as res eqn:E.
  unfold_handlers. run_cases E; subst res; new_sent.
  all: rewrite ?app_nil_r.
  all: repeat split; eauto; try lia.
  all: intros; in_list; subst; simpl; eauto.
Qed.

Lemma trigger_sends_at_most_once_witness :
  sent (final_node (snd (run (on_input demo_consts demo_msg online_node)
                           [quiet (held_store "host-b" 5000);
                            quiet (held_store "host-b" 5000);
                            quiet (held_store "host-b" 5000)])))
  = sent online_node ++
    newly_sent online_node
      (snd (run (on_input demo_consts demo_msg online_node)
              [quiet (held_store "host-b" 5000);
               quiet (held_store "host-b" 5000);
               quiet (held_store "host-b" 5000)])).
Proof.
  exact (proj1 (trigger_sends_at_most_once demo_consts demo_msg online_node
                  [quiet (held_store "host-b" 5000);
                   quiet (held_store "host-b" 5000);
                   quiet (held_store "host-b" 5000)])).
Defined.

(** X3. The message a trigger sends is the incoming message with the tags
    written over it: every other field passes through unchanged, and on the
    leader output a [followerHost] that came in with the message is still
    there. *)
Theorem payload_passes_through
    (C : consts) (msg : gmap string jsval) (nd : node) (ws : list world) :
  ∀ o m, o ∈ newly_sent nd (snd (run (on_input C msg nd) ws)) →
         o.1 = Some m ∨ o.2 = Some m →
         (∀ f, f ≠ "isLeader" → f ≠ "leaderHost" → f ≠ "followerHost" →
               m !! f = msg !! f) ∧
         (o.1 = Some m → m !! "followerHost" = msg !! "followerHost").
Proof.
  intros o m Ho Hm.
  destruct (input_outputs C msg nd ws) as [H | [H | [a H]]];
    rewrite H in Ho; in_list; subst o; simpl in *.
  - destruct Hm as [Hm | Hm]; [| done]. simplify_eq. split.
    + intros f H1 H2 H3. by apply (tag_passes_through C RNil msg f).
    + intros _. unfold tag_leader. by rewrite !lookup_insert_ne.
  - destruct Hm as [Hm | Hm]; [done |]. simplify_eq. split; [| done].
    intros f H1 H2 H3. by apply (tag_passes_through C a msg f).
Qed.

Lemma payload_passes_through_witness :
  (Some (tag_leader demo_consts demo_msg), None)
    ∈ newly_sent online_node
        (snd (run (on_input demo_consts demo_msg online_node) [quiet empty_store])) ∧
  tag_leader demo_consts demo_msg !! "payload" = Some (JNum 1).
Proof.
  assert (Hin : (Some (tag_leader demo_consts demo_msg), None)
    ∈ newly_sent online_node
        (snd (run (on_input demo_consts demo_msg online_node) [quiet empty_store]))).
  { vm_compute. apply list_elem_of_here. }
  split; [exact Hin |].
  destruct (payload_passes_through demo_consts demo_msg online_node [quiet empty_store]
              _ (tag_leader demo_consts demo_msg) Hin (or_introl eq_refl)) as [H _].
  rewrite (H "payload"); done.
Defined.

(** ** Windows left open by reading and writing in two steps *)

(** X4. [refreshLeadership] does not look at the answer of its [EXPIRE]: if
    the holder read answers the node's identity and the lease is gone by the
    time the refresh arrives, the trigger is still sent on the leader output,
    and no lease exists afterwards. *)
Theorem leader_without_lease
    (C : consts) (msg : gmap string jsval) (nd : node) (w1 w2 w3 : world)
    (ws : list world) :
  redisClient nd = true → isConnected nd = true → 0 < lockTTL C →
  Forall (λ w, w_fault w = false ∧ w_conn w = true) [w1; w2; w3] →
  holder (w_store w1) (lockKey C) = Some (hostname C) →
  holder (w_store w2) (lockKey C) = Some (hostname C) →
  holder (w_store w3) (lockKey C) = None →
  let r := run (on_input C msg nd) (w1 :: w2 :: w3 :: ws) in
  newly_sent nd (snd r) = [(Some (tag_leader C msg), None)] ∧
  ev_out <$> fst r = [Reply RNil; Reply (RStr (hostname C)); Reply (RInt 0)] ∧
  ∃ e, last (fst r) = Some e ∧ ev_after e = w_store w3 ∧
       holder (ev_after e) (lockKey C) = None.
Proof.
  intros Hcl Hc Httl Hws H1 H2 H3 r. subst r. split_foralls.
  repeat match goal with H : _ ∧ _ |- _ => destruct H end.
  remember (run (on_input C msg nd) (w1 :: w2 :: w3 :: ws)) as res eqn:E.
  unfold_handlers. unfold holder in *.
  run_cases E; subst res; simplify_eq/=; str_eqs; z_eqs; try lia; new_sent.
  all: try (exfalso; congruence).
  all: repeat match goal with H : e_val _ = hostname _ |- _ => rewrite H in * end.
  all: split; [done |]; split; [done |]; eexists; split; [done |]; split; [done |].
  all: simpl; unfold holder; by use_live.
Qed.

Lemma leader_without_lease_witness :
  newly_sent online_node
    (snd (run (on_input demo_consts demo_msg online_node)
            [quiet (held_store "host-a" 5000); quiet (held_store "host-a" 5000);
             quiet gone_store]))
  = [(Some (tag_leader demo_consts demo_msg), None)] ∧
  holder gone_store "nodered:leader" = None.
Proof.
  split; [| reflexivity].
  apply (leader_without_lease demo_consts demo_msg online_node
           (quiet (held_store "host-a" 5000)) (quiet (held_store "host-a" 5000))
           (quiet gone_store) []); try reflexivity.
  repeat constructor.
Defined.

(** X5. If the connection flag drops while the conditional set is under way
    and the node's own identity holds the key, the refresh is skipped and
    the trigger is sent on the follower output naming the node itself as
    leader. *)
Theorem follower_names_itself
    (C : consts) (msg : gmap string jsval) (nd : node) (w1 w2 : world)
    (ws : list world) :
  redisClient nd = true → isConnected nd = true → 0 < lockTTL C →
  w_fault w1 = false → w_conn w1 = false → w_fault w2 = false →
  holder (w_store w1) (lockKey C) = Some (hostname C) →
  holder (w_store w2) (lockKey C) = Some (hostname C) →
  let r := run (on_input C msg nd) (w1 :: w2 :: ws) in
  commands (fst r) = [SET_NX_EX (lockKey C) (hostname C) (lockTTL C); GET (lockKey C)] ∧
  newly_sent nd (snd r) = [(None, Some (tag_follower C (RStr (hostname C)) msg))] ∧
  tag_follower C (RStr (hostname C)) msg !! "leaderHost"
  = tag_follower C (RStr (hostname C)) msg !! "followerHost".
Proof.
  intros Hcl Hc Httl Hf1 Hc1 Hf2 H1 H2 r. subst r.
  remember (run (on_input C msg nd) (w1 :: w2 :: ws)) as res eqn:E.
  unfold_handlers. unfold holder in *.
  run_cases E; subst res; simplify_eq/=; str_eqs; z_eqs; try lia; new_sent.
  all: repeat match goal with H : e_val _ = hostname _ |- _ => rewrite H in * end.
  all: split; [done |]; split; [done |].
  all: by destruct (tag_follower_fields C (RStr (hostname C)) msg) as (_ & -> & ->).
Qed.

Lemma follower_names_itself_witness :
  newly_sent online_node
    (snd (run (on_input demo_consts demo_msg online_node)
            [World (held_store "host-a" 5000) false false;
             quiet (held_store "host-a" 5000)]))
  = [(None, Some (tag_follower demo_consts (RStr "host-a") demo_msg))].
Proof.
  apply (follower_names_itself demo_consts demo_msg online_node
           (World (held_store "host-a" 5000) false false)
           (quiet (held_store "host-a" 5000)) []); reflexivity.
Defined.

(** ** What the handlers do to the store *)

Lemma holder_put_alive (st : store) (k h : string) (ttl : Z) :
  0 < ttl → holder (put st k (Entry h (Some (now st + 1000 * ttl)))) k = Some h.
Proof.
  intros Httl. unfold holder. rewrite live_put. unfold alive. simpl.
  case_match; z_eqs; [done | lia].
Qed.

(** X6. Triggers and ticks never take a lease away: whoever holds the lock
    key when one of their commands arrives still holds it when the command
    has been served, whatever the answers and the interleaving. *)
Theorem lease_never_taken
    (C : consts) (msg : gmap string jsval) (nd : node) (ws : list world) :
  0 < lockTTL C →
  ∀ e h, e ∈ fst (run (on_input C msg nd) ws) ∨ e ∈ fst (run (on_tick C nd) ws) →
         holder (ev_before e) (lockKey C) = Some h →
         holder (ev_after e) (lockKey C) = Some h.
Proof.
  intros Httl e h [He | He] Hh.
  - remember (run (on_input C msg nd) ws) as res eqn:E.
    unfold_handlers. run_cases E; subst res; simpl in He; in_list; subst e;
      simpl in *; try done.
    all: unfold holder in Hh; use_live; simplify_eq/=; z_eqs; try lia.
    all: by apply holder_put_alive.
  - remember (run (on_tick C nd) ws) as res eqn:E.
    unfold_handlers. run_cases E; subst res; simpl in He; in_list; subst e;
      simpl in *; try done.
    all: unfold holder in Hh; use_live; simplify_eq/=; z_eqs; try lia.
    all: by apply holder_put_alive.
Qed.

Lemma lease_never_taken_witness :
  let e := Event (GET "nodered:leader") (Reply (RStr "host-b"))
             (held_store "host-b" 5000) (held_store "host-b" 5000) in
  0 < lockTTL demo_consts ∧
  e ∈ fst (run (on_tick demo_consts online_node) [quiet (held_store "host-b" 5000)]) ∧
  holder (ev_after e) "nodered:leader" = Some "host-b".
Proof.
  intros e.
  assert (Hin : e ∈ fst (run (on_tick demo_consts online_node)
                           [quiet (held_store "host-b" 5000)])).
  { vm_compute. apply list_elem_of_here. }
  split; [reflexivity |]. split; [exact Hin |].
  apply (lease_never_taken demo_consts demo_msg online_node
           [quiet (held_store "host-b" 5000)] eq_refl e "host-b" (or_intror Hin)).
  reflexivity.
Defined.

(** X7. Lock groups are independent: no handler of a node touches any key
    but its own lock key, and none moves the store's clock. *)
Theorem other_keys_untouched
    (C : consts) (msg : gmap string jsval) (nd : node) (ws : list world) :
  ∀ e k, e ∈ fst (run (on_input C msg nd) ws) ∨
         e ∈ fst (run (on_tick C nd) ws) ∨
         e ∈ fst (run (on_close C nd) ws) ∨
         e ∈ fst (run (initRedis nd) ws) →
         k ≠ lockKey C →
         keys (ev_after e) !! k = keys (ev_before e) !! k ∧
         now (ev_after e) = now (ev_before e).
Proof.
  intros e k He Hk. destruct He as [He | [He | [He | He]]].
  - remember (run (on_input C msg nd) ws) as res eqn:E.
    unfold_handlers. run_cases E; subst res; simpl in He; in_list; subst e;
      simpl; rewrite ?lookup_insert_ne, ?lookup_delete_ne by done; done.
  - remember (run (on_tick C nd) ws) as res eqn:E.
    unfold_handlers. run_cases E; subst res; simpl in He; in_list; subst e;
      simpl; rewrite ?lookup_insert_ne, ?lookup_delete_ne by done; done.
  - remember (run (on_close C nd) ws) as res eqn:E.
    unfold_handlers. run_cases E; subst res; simpl in He; in_list; subst e;
      simpl; rewrite ?lookup_insert_ne, ?lookup_delete_ne by done; done.
  - remember (run (initRedis nd) ws) as res eqn:E.
    unfold_handlers. run_cases E; subst res; simpl in He; in_list; subst e;
      simpl; done.
Qed.

Lemma other_keys_untouched_witness :
  let st := put empty_store "job-b" (Entry "host-c" (Some 9000)) in
  let e := Event (SET_NX_EX "nodered:leader" "host-a" 10) (Reply (RStr "OK")) st
             (put st "nodered:leader" (Entry "host-a" (Some 10000))) in
  e ∈ fst (run (on_input demo_consts demo_msg online_node) [quiet st]) ∧
  keys (ev_after e) !! "job-b" = Some (Entry "host-c" (Some 9000)).
Proof.
  intros st e.
  assert (Hin : e ∈ fst (run (on_input demo_consts demo_msg online_node) [quiet st])).
  { vm_compute. apply list_elem_of_here. }
  split; [exact Hin |].
  destruct (other_keys_untouched demo_consts demo_msg online_node [quiet st]
              e "job-b" (or_introl Hin)) as [H _]; [done |].
  rewrite H. reflexivity.
Defined.

(** X8. The close handler reads the holder and deletes in two steps.  If it
    reads its own identity and the key has passed to another holder by the
    time the [DEL] arrives, it deletes that holder's lease and logs the
    release. *)
Theorem close_deletes_foreign_lease
    (C : consts) (nd : node) (w1 w2 : world) (ws : list world) (other : string) :
  redisClient nd = true → isConnected nd = true →
  w_fault w1 = false → w_fault w2 = false →
  holder (w_store w1) (lockKey C) = Some (hostname C) →
  holder (w_store w2) (lockKey C) = Some other →
  ∃ g d rest,
    fst (run (on_close C nd) (w1 :: w2 :: ws)) = g :: d :: rest ∧
    ev_cmd d = DEL (lockKey C) ∧ ev_before d = w_store w2 ∧
    ev_after d = remove (w_store w2) (lockKey C) ∧
    holder (ev_after d) (lockKey C) = None.
Proof.
  intros Hcl Hc Hf1 Hf2 H1 H2.
  remember (run (on_close C nd) (w1 :: w2 :: ws)) as res eqn:E.
  unfold_handlers. unfold holder in *.
  run_cases E; subst res; simplify_eq/=; str_eqs; try (exfalso; congruence).
  all: eexists _, _, _; split; [reflexivity |]; simpl.
  all: repeat split; try done; unfold holder; by rewrite live_remove.
Qed.

Lemma close_deletes_foreign_lease_witness :
  ∃ g d rest,
    fst (run (on_close demo_consts ready_node)
           [quiet (held_store "host-a" 5000); quiet (held_store "host-b" 9000)])
    = g :: d :: rest ∧
    ev_cmd d = DEL "nodered:leader" ∧
    holder (ev_before d) "nodered:leader" = Some "host-b" ∧
    holder (ev_after d) "nodered:leader" = None.
Proof.
  destruct (close_deletes_foreign_lease demo_consts ready_node
              (quiet (held_store "host-a" 5000)) (quiet (held_store "host-b" 9000))
              [] "host-b" eq_refl eq_refl eq_refl eq_refl eq_refl eq_refl)
    as (g & d & rest & Hr & Hd & Hb & Ha & Hn).
  exists g, d, rest. repeat split; try done. by rewrite Hb.
Defined.

(** X9. The monitor reads the holder and refreshes in two steps as well.  If
    it reads its own identity and the key has passed to another holder by
    the time the [EXPIRE] arrives, it resets that holder's expiry to its own
    TTL and shows itself as leader. *)
Theorem tick_refreshes_foreign_lease
    (C : consts) (nd : node) (w1 w2 : world) (ws : list world) (other : string) :
  redisClient nd = true → isConnected nd = true → 0 < lockTTL C →
  w_fault w1 = false → w_fault w2 = false →
  holder (w_store w1) (lockKey C) = Some (hostname C) →
  holder (w_store w2) (lockKey C) = Some other →
  let r := run (on_tick C nd) (w1 :: w2 :: ws) in
  ∃ g x, fst r = [g; x] ∧
    ev_cmd x = EXPIRE (lockKey C) (lockTTL C) ∧
    ev_after x = put (w_store w2) (lockKey C)
                   (Entry other (Some (now (w_store w2) + 1000 * lockTTL C))) ∧
    status (final_node (snd r)) = Some (st_leader C).
Proof.
  intros Hcl Hc Httl Hf1 Hf2 H1 H2 r. subst r.
  remember (run (on_tick C nd) (w1 :: w2 :: ws)) as res eqn:E.
  unfold_handlers. unfold holder in *.
  run_cases E; subst res; simplify_eq/=; str_eqs; z_eqs; try lia;
    try (exfalso; congruence).
  all: eexists _, _; split; [reflexivity |]; simpl.
  all: repeat split; try done.
Qed.

Lemma tick_refreshes_foreign_lease_witness :
  ∃ g x, fst (run (on_tick demo_consts online_node)
                [quiet (held_store "host-a" 5000); quiet (held_store "host-b" 9000)])
         = [g; x] ∧
    ev_after x = put (held_store "host-b" 9000) "nodered:leader"
                   (Entry "host-b" (Some 10000)).
Proof.
  destruct (tick_refreshes_foreign_lease demo_consts online_node
              (quiet (held_store "host-a" 5000)) (quiet (held_store "host-b" 9000))
              [] "host-b" eq_refl eq_refl eq_refl eq_refl eq_refl eq_refl eq_refl)
    as (g & x & Hr & _ & Ha & _).
  exists g, x. split; [exact Hr | exact Ha].
Defined.

(** ** Acquiring a free key *)

Lemma input_atomic_free
    (C : consts) (msg : gmap string jsval) (nd : node) (st : store) :
  redisClient nd = true → isConnected nd = true → 0 < lockTTL C →
  holder st (lockKey C) = None →
  run_atomic (on_input C msg nd) st =
    (put st (lockKey C) (Entry (hostname C) (Some (now st + 1000 * lockTTL C))),
     Val tt (set_status (st_leader C) (add_sent (Some (tag_leader C msg), None) nd))).
Proof.
  intros Hcl Hc Httl Hh.
  remember (run_atomic (on_input C msg nd) st) as res eqn:E.
  unfold_handlers. unfold holder in *.
  run_cases E; subst res; simplify_eq/=; z_eqs; try lia; done.
Qed.

Lemma holder_expired (st : store) (k h : string) (dl d : Z) :
  keys st !! k = Some (Entry h (Some dl)) → 0 ≤ d →
  holder (elapse d st) k = if now st + d <? dl then Some h else None.
Proof.
  intros Hk Hd. unfold holder, live, elapse, alive. simpl. rewrite Hk. simpl.
  replace (Z.max 0 d) with d by lia. by case_match.
Qed.

(** X10. Failover happens exactly at expiry.  While another holder's lease
    has not run out a trigger is sent on the follower output naming that
    holder; from the instant it has run out, with nobody renewing it, the
    next trigger takes the key, is sent on the leader output and holds the
    lease for its own TTL. *)
Theorem failover_at_expiry
    (C : consts) (msg : gmap string jsval) (nd : node) (st : store)
    (other : string) (dl d : Z) :
  redisClient nd = true → isConnected nd = true → 0 < lockTTL C →
  keys st !! lockKey C = Some (Entry other (Some dl)) →
  other ≠ hostname C → 0 ≤ d →
  let r := run_atomic (on_input C msg nd) (elapse d st) in
  (now st + d < dl →
     fst r = elapse d st ∧
     newly_sent nd (snd r) = [(None, Some (tag_follower C (RStr other) msg))]) ∧
  (dl ≤ now st + d →
     newly_sent nd (snd r) = [(Some (tag_leader C msg), None)] ∧
     holder (fst r) (lockKey C) = Some (hostname C) ∧
     ∀ d', d' < 1000 * lockTTL C → holder (elapse d' (fst r)) (lockKey C) = Some (hostname C)).
Proof.
  intros Hcl Hc Httl Hk Hne Hd r. subst r.
  pose proof (holder_expired st _ _ dl d Hk Hd) as Hh. split; intros Hlt.
  - rewrite (proj2 (Z.ltb_lt _ _) Hlt) in Hh.
    remember (run_atomic (on_input C msg nd) (elapse d st)) as res eqn:E.
    unfold_handlers. unfold holder in *.
    run_cases E; subst res; simplify_eq/=; str_eqs; z_eqs; try lia;
      try (exfalso; congruence); new_sent; done.
  - rewrite (proj2 (Z.ltb_ge _ _) Hlt) in Hh.
    rewrite input_atomic_free by done. new_sent. split; [done |].
    split; [by apply holder_put_alive |].
    intros d' Hd'. unfold holder. rewrite live_elapse_put.
    case_match; z_eqs; [done | lia].
Qed.

Lemma failover_at_expiry_witness :
  newly_sent online_node
    (snd (run_atomic (on_input demo_consts demo_msg online_node)
            (elapse 5000 (held_store "host-b" 5000))))
  = [(Some (tag_leader demo_consts demo_msg), None)].
Proof.
  assert (Hexp : 5000 ≤ now (held_store "host-b" 5000) + 5000) by (simpl; lia).
  assert (Hne : "host-b" ≠ hostname demo_consts) by discriminate.
  exact (proj1 (proj2 (failover_at_expiry demo_consts demo_msg online_node
                         (held_store "host-b" 5000) "host-b" 5000 5000
                         eq_refl eq_refl eq_refl eq_refl Hne ltac:(lia)) Hexp)).
Defined.

(** X11. After the holder's close handler has released the key, the next
    trigger of any other node takes it at once, without waiting for the TTL. *)
Theorem release_then_acquire
    (CA CB : consts) (ndA ndB : node) (msg : gmap string jsval) (st : store) :
  redisClient ndA = true → isConnected ndA = true →
  redisClient ndB = true → isConnected ndB = true →
  lockKey CA = lockKey CB → 0 < lockTTL CB →
  holder st (lockKey CA) = Some (hostname CA) →
  let st1 := fst (run_atomic (on_close CA ndA) st) in
  let r := run_atomic (on_input CB msg ndB) st1 in
  holder st1 (lockKey CA) = None ∧
  newly_sent ndB (snd r) = [(Some (tag_leader CB msg), None)] ∧
  holder (fst r) (lockKey CB) = Some (hostname CB).
Proof.
  intros HclA HcA HclB HcB Hkey Httl Hh st1 r.
  assert (Hst1 : st1 = remove st (lockKey CA)).
  { subst st1. rewrite close_store by done. by rewrite decide_True. }
  assert (Hnone : holder st1 (lockKey CB) = None).
  { rewrite Hst1, <- Hkey. unfold holder. by rewrite live_remove. }
  split; [by rewrite Hkey |]. subst r.
  rewrite input_atomic_free by done. new_sent. split; [done |].
  by apply holder_put_alive.
Qed.

Lemma release_then_acquire_witness :
  holder (held_store "host-a" 5000) "nodered:leader" = Some "host-a" ∧
  newly_sent online_node
    (snd (run_atomic (on_input host_b demo_msg online_node)
            (fst (run_atomic (on_close demo_consts ready_node)
                    (held_store "host-a" 5000)))))
  = [(Some (tag_leader host_b demo_msg), None)].
Proof.
  split; [reflexivity |].
  apply (release_then_acquire demo_consts host_b ready_node online_node demo_msg
           (held_store "host-a" 5000)); reflexivity.
Defined.

(** ** The heartbeat *)


Lemma tick_atomic_free (C : consts) (nd : node) (st : store) :
  redisClient nd = true → isConnected nd = true →
  holder st (lockKey C) = None →
  run_atomic (on_tick C nd) st =
    (st, Val tt (set_status (Status "grey" "ring" "no leader") nd)).
Proof.
  intros Hcl Hc Hh.
  remember (run_atomic (on_tick C nd) st) as res eqn:E.
  unfold_handlers. unfold holder in *.
  run_cases E; subst res; simplify_eq/=; str_eqs; done.
Qed.

(** X12. The status shown by a tick.  Disconnected: 'disconnected', whatever
    the store holds.  Connected with a client, the tick's commands served one after
    the other: 'leader' when the key holds the node's own hostname,
    'follower' with the first twelve characters of the holder's name when it
    holds another non-empty name, and 'no leader' when the key is absent,
    has expired, or holds the empty string. *)
Theorem tick_status (C : consts) (nd : node) (st : store) :
  let nd' := final_node (snd (run_atomic (on_tick C nd) st)) in
  (isConnected nd = false →
     status nd' = Some (Status "red" "ring" "disconnected")) ∧
  (isConnected nd = true → redisClient nd = true →
     status nd' = Some
       match holder st (lockKey C) with
       | Some h =>
           if String.eqb h (hostname C) then st_leader C
           else if String.eqb h "" then Status "grey" "ring" "no leader"
           else Status "yellow" "ring" ("follower (leader: " +:+ sub12 h +:+ ")")
       | None => Status "grey" "ring" "no leader"
       end).
Proof.
  intros nd'. subst nd'. split; [intros Hc | intros Hc Hcl].
  - remember (run_atomic (on_tick C nd) st) as res eqn:E.
    unfold_handlers. run_cases E; subst res; simplify_eq/=; done.
  - remember (run_atomic (on_tick C nd) st) as res eqn:E.
    unfold_handlers. unfold holder in *.
    run_cases E; subst res; simplify_eq/=;
      repeat match goal with
             | |- context [String.eqb ?a ?b] => destruct (String.eqb_spec a b)
             | H : context [String.eqb ?a ?b] |- _ => destruct (String.eqb_spec a b)
             end; simplify_eq/=; try done.
Qed.

Lemma tick_status_witness :
  status (final_node (snd (run_atomic (on_tick demo_consts online_node)
                             (held_store "a-rather-long-hostname" 5000))))
  = Some (Status "yellow" "ring" "follower (leader: a-rather-lon)").
Proof.
  exact (proj2 (tick_status demo_consts online_node
                  (held_store "a-rather-long-hostname" 5000)) eq_refl eq_refl).
Defined.




Lemma beats_free (C : consts) (n : nat) (nd : node) (st : store) :
  redisClient nd = true → isConnected nd = true →
  holder (elapse tick_period st) (lockKey C) = None →
  let r := beats C (S n) nd st in
  keys (fst r) = keys st ∧ now st + tick_period ≤ now (fst r) ∧
  status (snd r) = Some (Status "grey" "ring" "no leader") ∧
  sent (snd r) = sent nd.
Proof.
  revert nd st. induction n as [| n IH]; intros nd st Hcl Hc Hh.
  - simpl. rewrite tick_atomic_free by done. simpl. repeat split; try done; unfold tick_period; lia.
  - change (beats C (S (S n)) nd st)
      with (let r := run_atomic (on_tick C nd) (elapse tick_period st) in
            beats C (S n) (final_node (snd r)) (fst r)).
    rewrite tick_atomic_free by done. cbv zeta.
    cbn [fst snd final_node].
    destruct (IH (set_status (Status "grey" "ring" "no leader") nd)
                 (elapse tick_period st)) as (H1 & H2 & H3 & H4); try done.
    { by apply holder_elapse_none. }
    cbn [fst snd final_node] in *.
    remember (beats C (S n) _ _) as r eqn:Er. clear Er.
    repeat split; try done.
    simpl in H2. unfold tick_period in *. lia.
Qed.

(** A tick that finds the node's own hostname in the key, with its refresh
    served [lag] milliseconds after its read. *)
Lemma tick_lagging (C : consts) (nd : node) (st : store) (lag : Z) :
  redisClient nd = true → isConnected nd = true →
  0 < lockTTL C → 0 ≤ lag →
  holder st (lockKey C) = Some (hostname C) →
  let r1 := run (on_tick C nd) [quiet st; quiet (elapse lag st)] in
  let st1 := store_after st (fst r1) in
  commands (fst r1) = [GET (lockKey C); EXPIRE (lockKey C) (lockTTL C)] ∧
  status (final_node (snd r1)) = Some (st_leader C) ∧
  redisClient (final_node (snd r1)) = true ∧
  isConnected (final_node (snd r1)) = true ∧
  now st1 = now st + lag ∧
  ∀ d, lag + 1000 * lockTTL C ≤ d →
       holder (elapse (d - lag) st1) (lockKey C) = None.
Proof.
  intros Hcl Hc Httl Hlag Hh r1 st1. subst st1 r1.
  remember (run (on_tick C nd) [quiet st; quiet (elapse lag st)]) as res eqn:E.
  unfold_handlers. unfold holder in *.
  run_cases E; subst res; simplify_eq/=; str_eqs; z_eqs; try lia;
    try (exfalso; congruence).
  all: unfold store_after; simpl.
  all: repeat split; try done; try lia.
  - intros d Hd. unfold live, elapse, put, alive. simpl.
    rewrite lookup_insert_eq. simpl. case_match; z_eqs; [lia | done].
  - intros d Hd. apply (holder_elapse_none (elapse lag st)).
    unfold holder.
    by match goal with H : live (elapse lag st) _ = None |- _ => rewrite H end.
Qed.

(** X14. A heartbeat slower than the lease.  A tick reads the node's own
    hostname and its refresh is served [lag] milliseconds later.  When the
    lease set by that refresh ends before the next tick's read, one period
    (2000 ms) after the first read, that is when [lag] plus the TTL is less
    than the period (a TTL of 1 second and a refresh served in less than a
    second), the next tick finds the key expired and shows 'no leader', and
    so does every later tick of the idle node: the ticks never take the key
    back.  These later ticks issue a read only, so nothing is assumed about
    the timing of their commands. *)
Theorem heartbeat_too_slow
    (C : consts) (n : nat) (nd : node) (st : store) (lag : Z) :
  redisClient nd = true → isConnected nd = true →
  0 < lockTTL C → 0 ≤ lag → lag + 1000 * lockTTL C < tick_period →
  holder st (lockKey C) = Some (hostname C) →
  let r1 := run (on_tick C nd) [quiet st; quiet (elapse lag st)] in
  let st1 := store_after st (fst r1) in
  let r2 := run_atomic (on_tick C (final_node (snd r1)))
              (elapse (tick_period - lag) st1) in
  let r := beats C n (final_node (snd r2)) (fst r2) in
  commands (fst r1) = [GET (lockKey C); EXPIRE (lockKey C) (lockTTL C)] ∧
  status (final_node (snd r1)) = Some (st_leader C) ∧
  now (elapse (tick_period - lag) st1) = now st + tick_period ∧
  fst r2 = elapse (tick_period - lag) st1 ∧
  holder (fst r) (lockKey C) = None ∧
  status (snd r) = Some (Status "grey" "ring" "no leader").
Proof.
  intros Hcl Hc Httl Hlag Hper Hh r1 st1 r2 r.
  destruct (tick_lagging C nd st lag Hcl Hc Httl Hlag Hh)
    as (Hcmds & Hst & Hcl1 & Hc1 & Hnow & Hgone).
  fold r1 in Hcmds, Hst, Hcl1, Hc1, Hnow, Hgone. fold st1 in Hnow, Hgone.
  specialize (Hgone tick_period ltac:(lia)).
  assert (Hr2 : r2 = (elapse (tick_period - lag) st1,
                      Val tt (set_status (Status "grey" "ring" "no leader")
                                (final_node (snd r1))))).
  { subst r2. by apply tick_atomic_free. }
  split; [done |]. split; [done |].
  split; [simpl; unfold tick_period in *; lia |].
  split; [by rewrite Hr2 |].
  subst r. rewrite Hr2. cbn [fst snd final_node].
  destruct n as [| n]; [done |].
  destruct (beats_free C n (set_status (Status "grey" "ring" "no leader")
                              (final_node (snd r1)))
              (elapse (tick_period - lag) st1)) as (Hk & _ & Hs & _); try done.
  { by apply holder_elapse_none. }
  split; [| done].
  assert (Hk0 : holder (Store (now (elapse (tick_period - lag) st1))
                          (keys (elapse (tick_period - lag) st1))) (lockKey C) = None)
    by (by destruct (elapse (tick_period - lag) st1)).
  remember (beats C (S n) _ _) as b eqn:Eb.
  assert (Hnow' : now (elapse (tick_period - lag) st1) ≤ now (fst b)).
  { subst b.
    destruct (beats_free C n (set_status (Status "grey" "ring" "no leader")
                                (final_node (snd r1)))
                (elapse (tick_period - lag) st1)) as (_ & Hn & _); try done.
    - by apply holder_elapse_none.
    - unfold tick_period in *. lia. }
  clear Eb.
  unfold holder, live in *. rewrite Hk. simpl in Hk0.
  destruct (keys (elapse (tick_period - lag) st1) !! lockKey C) as [[v [dl|]]|];
    simpl in *; try done.
  unfold alive in *. simpl in *.
  destruct (Z.ltb_spec (now st1 + Z.max 0 (tick_period - lag)) dl); [done |].
  destruct (Z.ltb_spec (now (fst b)) dl); [lia | done].
Qed.

Lemma heartbeat_too_slow_witness :
  let C := Consts "nodered:leader" 1 "host-a" in
  let st := held_store "host-a" 5000 in
  let r1 := run (on_tick C online_node) [quiet st; quiet (elapse 400 st)] in
  let r2 := run_atomic (on_tick C (final_node (snd r1)))
              (elapse (tick_period - 400) (store_after st (fst r1))) in
  holder st "nodered:leader" = Some "host-a" ∧
  holder (fst (beats C 3 (final_node (snd r2)) (fst r2))) "nodered:leader" = None.
Proof.
  intros C st r1 r2. split; [reflexivity |].
  pose proof (heartbeat_too_slow C 3 online_node st 400
                eq_refl eq_refl eq_refl ltac:(lia) eq_refl eq_refl) as H.
  exact (proj1 (proj2 (proj2 (proj2 (proj2 H))))).
Defined.

(** ** What the handlers do to the timers *)

Section Timers.

Variable P : node → Prop.
Hypothesis P_on_timers : on_timers P.
Hypothesis P_clear : ∀ t nd, P nd → P (clear_timer t nd).

Lemma holds_bindR {A B} (r : Res A) (f : A → M B) :
  Holds P r → (∀ a, holds P (f a)) → Holds P (bindR r f).
Proof.
  intros Hr Hf. induction Hr as [a nd Hnd | e nd Hnd | c nd k Hnd Hk IH]; simpl.
  - by apply Hf.
  - by constructor.
  - constructor; [done |]. intros o nd' Hnd'. by apply IH.
Qed.

Lemma holds_catchR {A} (r : Res A) (h : string → M A) :
  Holds P r → (∀ e, holds P (h e)) → Holds P (catchR r h).
Proof.
  intros Hr Hh. induction Hr as [a nd Hnd | e nd Hnd | c nd k Hnd Hk IH]; simpl.
  - by constructor.
  - by apply Hh.
  - constructor; [done |]. intros o nd' Hnd'. by apply IH.
Qed.

Lemma holds_bind {A B} (m : M A) (f : A → M B) :
  holds P m → (∀ a, holds P (f a)) → holds P (bind m f).
Proof. intros Hm Hf nd Hnd. apply holds_bindR; auto. Qed.

Lemma holds_try {A} (m : M A) (h : string → M A) :
  holds P m → (∀ e, holds P (h e)) → holds P (try_catch m h).
Proof. intros Hm Hh nd Hnd. apply holds_catchR; auto. Qed.

Lemma holds_ret {A} (a : A) : holds P (ret a).
Proof. intros nd Hnd. by constructor. Qed.

Lemma holds_gets {A} (f : node → A) : holds P (gets f).
Proof. intros nd Hnd. by constructor. Qed.

Lemma holds_await (c : command) : holds P (await c).
Proof.
  intros nd Hnd. unfold await. destruct (redisClient nd); constructor; try done.
  intros [r | e] nd' Hnd'; by constructor.
Qed.

Lemma holds_frame (f : node → node) :
  (∀ nd, timers (f nd) = timers nd) →
  (∀ nd, statusInterval (f nd) = statusInterval nd) →
  holds P (modify f).
Proof.
  intros Ht Hs nd Hnd. constructor.
  eapply P_on_timers; [apply Ht | apply Hs | done].
Qed.

Lemma holds_clear (t : nat) : holds P (modify (clear_timer t)).
Proof. intros nd Hnd. constructor. by apply P_clear. Qed.

Ltac holds_tac :=
  repeat first
    [ assumption
    | apply holds_bind | apply holds_try | apply holds_ret | apply holds_gets
    | apply holds_await | apply holds_clear
    | apply holds_frame; reflexivity
    | match goal with
      | |- ∀ _, _ => intro
      | |- holds _ (if ?b then _ else _) => destruct b
      | |- holds _ (match ?x with _ => _ end) => destruct x
      end ].

(** Every handler but [initRedis] keeps [P]; [initRedis] does when
    [startStatusMonitoring] does. *)
Lemma holds_handlers (C : consts) (msg : gmap string jsval) (message : string) :
  holds P (on_input C msg) ∧ holds P (on_tick C) ∧ holds P (on_close C) ∧
  holds P (on_redis_error message) ∧ holds P on_redis_connect ∧
  (holds P startStatusMonitoring → holds P initRedis).
Proof.
  unfold on_input, on_tick, on_close, initRedis, checkLeadership,
    refreshLeadership, on_redis_error, on_redis_connect,
    node_error, node_warn, node_log, node_status, node_send.
  repeat split; holds_tac.
Qed.

Lemma settle_holds (p : proc) (others : list task) (r : Res unit) :
  Forall (task_holds P) others → Holds P r → proc_holds P (settle p others r).
Proof.
  intros Ho Hr. destruct Hr as [a nd Hnd | e nd Hnd | c nd k Hnd Hk]; simpl.
  - by split.
  - by split.
  - split; [done |]. apply Forall_app. split; [done |].
    apply Forall_singleton. intros o nd' Hnd'. by apply Hk.
Qed.

Lemma insert_launch_holds
    (m : consts → M unit) (i : nat) (p : proc) (ps : list proc) :
  (∀ C, holds P (m C)) → Forall (proc_holds P) ps → ps !! i = Some p →
  Forall (proc_holds P) (<[i := launch m p]> ps).
Proof.
  intros Hm Hall Hp. apply Forall_insert; [done |].
  eapply Forall_lookup_1 in Hall as [Hnd Hts]; [| exact Hp].
  unfold launch. apply settle_holds; [done |]. by apply Hm.
Qed.

Lemma step_holds (l : label) (s s' : system) :
  (is_start l = true → holds P startStatusMonitoring) →
  Forall (proc_holds P) (s_procs s) → step l s = Some s' →
  Forall (proc_holds P) (s_procs s').
Proof.
  intros Hst Hall Hstep.
  destruct l as [d | i j fault | i msg | i | i | i | i message | i];
    simpl in Hstep; [by simplify_eq | ..];
    destruct (s_procs s !! i) as [p|] eqn:Hp; simpl in Hstep; try done.
  - destruct (p_tasks p !! j) as [t|] eqn:Ht; simpl in Hstep; [| done].
    destruct (serve fault (s_store s) (t_cmd t)) as [o st']. simplify_eq/=.
    apply Forall_insert; [done |].
    eapply Forall_lookup_1 in Hall as [Hnd Hts]; [| exact Hp].
    unfold resume. apply settle_holds.
    + by apply Forall_delete.
    + eapply Forall_lookup_1 in Hts; [| exact Ht]. apply Hts.
      unfold before_resume. destruct (t_cmd t), o; try done.
      eapply P_on_timers; [| | exact Hnd]; reflexivity.
  - simplify_eq/=. apply insert_launch_holds; [| done..].
    intros C. apply (holds_handlers C msg "").
  - destruct (timers (p_node p)); simplify_eq/=.
    apply insert_launch_holds; [| done..].
    intros C. apply (holds_handlers C ∅ "").
  - simplify_eq/=. apply insert_launch_holds; [| done..].
    intros C. apply (holds_handlers C ∅ "").
  - simplify_eq/=. apply insert_launch_holds; [| done..].
    intros C. apply (holds_handlers C ∅ ""). by apply Hst.
  - simplify_eq/=. apply insert_launch_holds; [| done..].
    intros C. apply (holds_handlers C ∅ message).
  - simplify_eq/=. apply insert_launch_holds; [| done..].
    intros C. apply (holds_handlers C ∅ "").
Qed.

Lemma exec_holds (ls : list label) (s s' : system) :
  (∀ l, l ∈ ls → is_start l = true → holds P startStatusMonitoring) →
  Forall (proc_holds P) (s_procs s) → exec ls s = Some s' →
  Forall (proc_holds P) (s_procs s').
Proof.
  revert s. induction ls as [|l ls IH]; intros s Hst Hall Hex; simpl in Hex.
  - by simplify_eq.
  - destruct (step l s) as [s1|] eqn:Hstep; simpl in Hex; [| done].
    apply (IH s1); [| | done].
    + intros l' Hl'. apply Hst. by apply list_elem_of_further.
    + eapply step_holds; [| done..]. apply Hst, list_elem_of_here.
Qed.

End Timers.

Lemma one_timer_on_timers : on_timers one_timer.
Proof.
  intros nd nd' Ht Hs [H | (t & H1 & H2)]; [left | right].
  - congruence.
  - exists t. split; congruence.
Qed.

Lemma one_timer_clear (t : nat) (nd : node) :
  one_timer nd → one_timer (clear_timer t nd).
Proof.
  intros [H | (t' & H1 & H2)]; unfold one_timer; simpl.
  - left. by rewrite H.
  - rewrite H2. destruct (decide (t' ≠ t)).
    + right. exists t'. split; [done |]. by rewrite filter_cons_True, filter_nil.
    + left. by rewrite filter_cons_False, filter_nil.
Qed.

Lemma one_timer_start : holds one_timer startStatusMonitoring.
Proof.
  intros nd Hnd. unfold startStatusMonitoring, bind, gets, modify. simpl.
  destruct (statusInterval nd) as [t|] eqn:Ht; simpl; constructor;
    right; exists (timer_seq nd); simpl; (split; [done |]).
  - destruct Hnd as [H | (t' & H1 & H2)]; rewrite H2 || rewrite H; [done |].
    simplify_eq. by rewrite filter_cons_False, filter_nil by (intros ?; done).
  - destruct Hnd as [H | (t' & H1 & H2)]; [by rewrite H | congruence].
Qed.

(** X15. No timer leak.  In every state reached from freshly constructed
    nodes, whatever handlers were started and however their commands were
    served, each node has at most one running timer, and [statusInterval]
    refers to it: [startStatusMonitoring] clears the old timer before it
    starts a new one, and nothing else starts one. *)
Theorem one_timer_reachable
    (cfgs : list (config * environment)) (st : store) (ls : list label) (s' : system) :
  exec ls (System st ((λ c, new_proc c.1 c.2) <$> cfgs)) = Some s' →
  Forall (λ p, one_timer (p_node p) ∧ (length (timers (p_node p)) ≤ 1)%nat)
         (s_procs s').
Proof.
  intros Hex.
  assert (Hall : Forall (proc_holds one_timer) (s_procs s')).
  { eapply (exec_holds one_timer one_timer_on_timers one_timer_clear);
      [| | exact Hex].
    - intros _ _ _. apply one_timer_start.
    - simpl. apply Forall_fmap, Forall_forall. intros c _. split; [| done].
      by left. }
  eapply Forall_impl; [exact Hall |]. intros p [Hp _]. split; [done |].
  destruct Hp as [H | (t & _ & H)]; rewrite H; simpl; lia.
Qed.

Lemma one_timer_reachable_witness :
  ∃ s', exec [Start 0; Serve 0 0 false; Start 0; Serve 0 0 false]%nat
          (System empty_store [new_proc (Config None JUndef) demo_env]) = Some s' ∧
        Forall (λ p, one_timer (p_node p) ∧ (length (timers (p_node p)) ≤ 1)%nat)
               (s_procs s').
Proof.
  eexists. split; [reflexivity |].
  exact (one_timer_reachable [(Config None JUndef, demo_env)] empty_store
           [Start 0; Serve 0 0 false; Start 0; Serve 0 0 false]%nat _ eq_refl).
Defined.

(** ** Only [initRedis] starts the monitor *)

Lemma no_timer_on_timers : on_timers no_timer.
Proof. intros nd nd' Ht _ H. unfold no_timer in *. congruence. Qed.

Lemma no_timer_clear (t : nat) (nd : node) :
  no_timer nd → no_timer (clear_timer t nd).
Proof. unfold no_timer. simpl. by intros ->. Qed.

Lemma step_length (l : label) (s s' : system) :
  step l s = Some s' → length (s_procs s') = length (s_procs s).
Proof.
  intros Hstep.
  destruct l as [d | i j fault | i msg | i | i | i | i message | i];
    simpl in Hstep; [by simplify_eq | ..];
    destruct (s_procs s !! i) as [p|] eqn:Hp; simpl in Hstep; try done.
  - destruct (p_tasks p !! j) as [t|]; simpl in Hstep; [| done].
    destruct (serve fault (s_store s) (t_cmd t)). simplify_eq/=.
    by rewrite length_insert.
  - simplify_eq/=. by rewrite length_insert.
  - destruct (timers (p_node p)); simplify_eq/=. by rewrite length_insert.
  - simplify_eq/=. by rewrite length_insert.
  - simplify_eq/=. by rewrite length_insert.
  - simplify_eq/=. by rewrite length_insert.
  - simplify_eq/=. by rewrite length_insert.
Qed.

Lemma exec_length (ls : list label) (s s' : system) :
  exec ls s = Some s' → length (s_procs s') = length (s_procs s).
Proof.
  revert s. induction ls as [|l ls IH]; intros s Hex; simpl in Hex.
  - by simplify_eq.
  - destruct (step l s) as [s1|] eqn:Hstep; simpl in Hex; [| done].
    rewrite (IH s1 Hex). by eapply step_length.
Qed.

(** A single node without a timer whose waiting tasks start none keeps
    none, as long as [initRedis] is not run. *)
Lemma no_timer_exec (ls : list label) (st : store) (p : proc) (s' : system) :
  proc_holds no_timer p →
  (∀ l, l ∈ ls → is_start l = false) →
  exec ls (System st [p]) = Some s' →
  ∃ p', s_procs s' = [p'] ∧ timers (p_node p') = [] ∧ step (Tick 0) s' = None.
Proof.
  intros Hp Hls Hex.
  assert (Hall : Forall (proc_holds no_timer) (s_procs s')).
  { eapply (exec_holds no_timer no_timer_on_timers no_timer_clear);
      [| | exact Hex].
    - intros l Hl Hs. apply Hls in Hl. congruence.
    - simpl. by apply Forall_singleton. }
  apply exec_length in Hex. simpl in Hex.
  destruct (s_procs s') as [| p' [| ? ?]] eqn:E; simplify_eq/=.
  apply Forall_singleton in Hall as [Hnt _].
  exists p'. split; [done |]. split; [exact Hnt |].
  by rewrite E; simpl; rewrite Hnt.
Qed.

(** X16. A failed startup is final for the monitor.  When [connect()] is
    rejected, [initRedis] logs the error, shows 'connection failed' and
    starts no timer; and whatever happens afterwards (reconnections of the
    client, triggers, close), short of running [initRedis] again, no timer
    is ever started: the status is never refreshed by a tick. *)
Theorem failed_startup_never_monitors
    (cfg : config) (env : environment) (st : store) (ls : list label) (s' : system) :
  (∀ l, l ∈ ls → is_start l = false) →
  exec ([Start 0; Serve 0 0 true]%nat ++ ls) (System st [new_proc cfg env]) = Some s' →
  (∃ nd, node_of 0 (exec [Start 0; Serve 0 0 true]%nat (System st [new_proc cfg env]))
           = Some nd ∧
         isConnected nd = false ∧ timers nd = [] ∧
         status nd = Some (Status "red" "ring" "connection failed") ∧
         logs nd = [(LError, "Failed to connect to Redis: connection failure")]) ∧
  ∃ p', s_procs s' = [p'] ∧ timers (p_node p') = [] ∧ step (Tick 0) s' = None.
Proof.
  intros Hls Hex. split.
  - eexists. split; [reflexivity |]. by repeat split.
  - rewrite exec_app in Hex.
    change (exec [Start 0; Serve 0 0 true]%nat (System st [new_proc cfg env]))
      with (Some (System st
              [Proc (ClusterLeaderNode cfg env)
                 (set_status (Status "red" "ring" "connection failed")
                    (add_log LError "Failed to connect to Redis: connection failure"
                       (set_redisClient true fresh_node))) []])) in Hex.
    simpl in Hex. eapply no_timer_exec; [| exact Hls | exact Hex].
    split; [reflexivity | by apply Forall_nil].
Qed.

Lemma failed_startup_never_monitors_witness :
  ∃ s', exec ([Start 0; Serve 0 0 true] ++
              [RedisConnect 0; Input 0 demo_msg; Serve 0 0 false])%nat
          (System empty_store [new_proc (Config None (JStr "10")) demo_env]) = Some s' ∧
        sent_by 0 (Some s') = Some [leader_out demo_consts demo_msg] ∧
        step (Tick 0) s' = None.
Proof.
  eexists. split; [reflexivity |]. split; [reflexivity |].
  destruct (failed_startup_never_monitors (Config None (JStr "10")) demo_env empty_store
              [RedisConnect 0; Input 0 demo_msg; Serve 0 0 false]%nat _
              ltac:(intros l Hl; repeat (apply elem_of_cons in Hl as [-> | Hl]; [done |]);
                    by apply elem_of_nil in Hl)
              eq_refl) as [_ (p' & _ & _ & H)].
  exact H.
Defined.

Lemma clear_timer_idem (t : nat) (nd : node) :
  clear_timer t (clear_timer t nd) = clear_timer t nd.
Proof.
  unfold clear_timer. simpl. f_equal.
  induction (timers nd) as [|x l IH]; [done |].
  destruct (decide (x ≠ t)).
  - rewrite !filter_cons_True by done. by rewrite IH.
  - by rewrite !filter_cons_False by done.
Qed.

Lemma close_from_cleared (C : consts) (nd : node) :
  on_close C nd =
  on_close C (match statusInterval nd with Some t => clear_timer t nd | None => nd end).
Proof.
  unfold on_close, bind, gets, modify.
  destruct (statusInterval nd) as [t|] eqn:Hs; simpl; [| by rewrite Hs].
  by rewrite Hs, clear_timer_idem.
Qed.

(** X17. Close stops the monitor for good.  When an idle node whose timers
    are in order is closed, its timer is cleared before anything else, and
    whatever happens afterwards (the close handler's own commands served or
    failing, triggers, client events), short of running [initRedis] again,
    no timer runs: no tick follows a close. *)
Theorem close_stops_monitor
    (p : proc) (st : store) (ls : list label) (s' : system) :
  timers_ok (p_node p) → p_tasks p = [] →
  (∀ l, l ∈ ls → is_start l = false) →
  exec (Close 0 :: ls) (System st [p]) = Some s' →
  ∃ p', s_procs s' = [p'] ∧ timers (p_node p') = [] ∧ step (Tick 0) s' = None.
Proof.
  intros Hok Hidle Hls Hex. simpl in Hex.
  eapply no_timer_exec; [| exact Hls | exact Hex].
  unfold launch. rewrite Hidle, close_from_cleared.
  apply settle_holds; [by apply Forall_nil |].
  apply (holds_handlers no_timer no_timer_on_timers no_timer_clear
           (p_consts p) ∅ "").
  unfold no_timer.
  destruct (statusInterval (p_node p)) eqn:Hs;
    eauto using clear_timer_none, no_handle_no_timer.
Qed.

Lemma close_stops_monitor_witness :
  ∃ s', exec [Close 0; Serve 0 0 false; Serve 0 0 false; Input 0 demo_msg;
              Serve 0 0 false; Serve 0 0 false]%nat
          (System (held_store "host-a" 5000) [Proc demo_consts ready_node []]) = Some s' ∧
        step (Tick 0) s' = None.
Proof.
  eexists. split; [reflexivity |].
  destruct (close_stops_monitor (Proc demo_consts ready_node [])
              (held_store "host-a" 5000)
              [Serve 0 0 false; Serve 0 0 false; Input 0 demo_msg;
               Serve 0 0 false; Serve 0 0 false]%nat _
              ready_node_timers_ok eq_refl
              ltac:(intros l Hl; repeat (apply elem_of_cons in Hl as [-> | Hl]; [done |]);
                    by apply elem_of_nil in Hl)
              eq_refl) as (p' & _ & _ & H).
  exact H.
Defined.

(** ** The TTL as text *)

Ltac each_digit d :=
  do 10 (destruct d as [|d]; [try reflexivity |]); [lia].

Lemma digit_val_char (d : nat) :
  (d < 10)%nat → digit_val 10 (digit_char d) = Some (Z.of_nat d).
Proof. intros Hd. each_digit d. Qed.

Lemma read_digits_rest (rest : string) (acc : option Z) :
  no_digit_ahead rest → read_digits 10 rest acc = acc.
Proof. destruct rest as [|c r]; simpl; [done |]. by intros ->. Qed.

Lemma read_digits_numeral (ds : list nat) (rest : string) (acc : Z) :
  Forall (λ d, (d < 10)%nat) ds → no_digit_ahead rest →
  read_digits 10 (numeral ds +:+ rest) (Some acc) =
  Some (fold_left (λ a d, 10 * a + Z.of_nat d) ds acc).
Proof.
  intros Hds Hrest. revert acc.
  induction Hds as [| d ds Hd Hds IH]; intros acc.
  - simpl. by apply read_digits_rest.
  - change (numeral (d :: ds) +:+ rest)
      with (String (digit_char d) (numeral ds +:+ rest)).
    cbn [read_digits]. rewrite digit_val_char by done. simpl default.
    by rewrite IH.
Qed.

Lemma fold_digits_nonneg (ds : list nat) (a : Z) :
  0 ≤ a → 0 ≤ fold_left (λ a d, 10 * a + Z.of_nat d) ds a.
Proof.
  revert a. induction ds as [| d ds IH]; intros a Ha; simpl; [done |].
  apply IH. lia.
Qed.

Lemma numeral_plain (d : nat) (ds : list nat) (rest : string) :
  Forall (λ d, (d < 10)%nat) (d :: ds) →
  (d :: ds = [0%nat] → hex_mark rest = false) →
  let s := numeral (d :: ds) +:+ rest in
  skip_ws s = s ∧ strip_sign s = (1, s) ∧ strip_hex s = (10, s).
Proof.
  intros Hds Hhex. apply Forall_cons in Hds as [Hd Hds].
  destruct d as [|d].
  - destruct ds as [| d2 ds].
    + specialize (Hhex eq_refl). destruct rest as [| c r]; [done |].
      destruct c as [[] [] [] [] [] [] [] []]; simpl in *; done.
    + apply Forall_cons in Hds as [Hd2 _].
      do 10 (destruct d2 as [|d2]; [done |]). lia.
  - do 9 (destruct d as [|d]; [done |]). lia.
Qed.

Lemma parseInt_numeral (ds : list nat) (rest : string) :
  ds ≠ [] → Forall (λ d, (d < 10)%nat) ds → no_digit_ahead rest →
  (ds = [0%nat] → hex_mark rest = false) →
  parseInt_string (numeral ds +:+ rest) = Some (numeral_value ds) ∧
  parseInt_string ("-" +:+ numeral ds +:+ rest) = Some (- numeral_value ds).
Proof.
  intros Hne Hds Hrest Hhex. destruct ds as [| d ds]; [done |].
  destruct (numeral_plain d ds rest Hds Hhex) as (Hws & Hsign & Hx).
  pose proof (read_digits_numeral (d :: ds) rest 0 Hds Hrest) as Hread.
  assert (Hfirst : read_digits 10 (numeral (d :: ds) +:+ rest) None =
                   read_digits 10 (numeral (d :: ds) +:+ rest) (Some 0)).
  { change (numeral (d :: ds) +:+ rest)
      with (String (digit_char d) (numeral ds +:+ rest)).
    cbn [read_digits]. rewrite digit_val_char; [done |].
    by apply Forall_cons in Hds as [? _]. }
  unfold parseInt_string. split.
  - rewrite Hws, Hsign, Hx, Hfirst, Hread. unfold numeral_value. f_equal; lia.
  - change (skip_ws ("-" +:+ numeral (d :: ds) +:+ rest))
      with ("-" +:+ numeral (d :: ds) +:+ rest).
    change (strip_sign ("-" +:+ numeral (d :: ds) +:+ rest))
      with (-1, numeral (d :: ds) +:+ rest).
    cbv beta iota. rewrite Hx, Hfirst, Hread. unfold numeral_value. f_equal; lia.
Qed.

(** X18. The TTL read from text.  For a configured TTL that starts with
    decimal digits (followed by nothing or by anything that is not a digit,
    and not the [0x] of a hexadecimal number) whose value is at most 2^53,
    [lockTTL] is the value of those digits, and 10 when that value is zero: a fraction is cut off, so
    '1.5' gives 1 and '0.5' gives 10.  With a minus sign in front the
    negative value is kept: the fallback to 10 only catches zero. *)
Theorem ttl_from_text
    (k : option string) (env : environment) (ds : list nat) (rest : string) :
  ds ≠ [] → Forall (λ d, (d < 10)%nat) ds → no_digit_ahead rest →
  (ds = [0%nat] → hex_mark rest = false) →
  numeral_value ds ≤ 2 ^ 53 →
  let v := numeral_value ds in
  0 ≤ v ∧
  lockTTL (ClusterLeaderNode (Config k (JStr (numeral ds +:+ rest))) env)
    = (if v =? 0 then 10 else v) ∧
  lockTTL (ClusterLeaderNode (Config k (JStr ("-" +:+ numeral ds +:+ rest))) env)
    = (if v =? 0 then 10 else - v).
Proof.
  intros Hne Hds Hrest Hhex _ v.
  destruct (parseInt_numeral ds rest Hne Hds Hrest Hhex) as [Hpos Hneg].
  assert (Hv : 0 ≤ v) by (by apply fold_digits_nonneg).
  split; [done |]. unfold ClusterLeaderNode, parseInt_or, parseInt.
  cbn [lockTTL cfg_lockTTL]. rewrite Hpos, Hneg. fold v. split; [done |].
  destruct (Z.eqb_spec v 0) as [-> | Hnz]; [done |].
  destruct (Z.eqb_spec (- v) 0); [lia | done].
Qed.

Lemma ttl_from_text_witness :
  lockTTL (ClusterLeaderNode (Config None (JStr "1.5")) demo_env) = 1 ∧
  lockTTL (ClusterLeaderNode (Config None (JStr "0.5")) demo_env) = 10 ∧
  lockTTL (ClusterLeaderNode (Config None (JStr "-30s")) demo_env) = -30.
Proof.
  assert (H1 : ∀ d, (d < 10)%nat → Forall (λ d, (d < 10)%nat) [d])
    by (intros d Hd; constructor; [exact Hd | constructor]).
  assert (H2 : Forall (λ d, (d < 10)%nat) [3; 0]%nat)
    by (constructor; [lia | apply H1; lia]).
  split; [| split].
  - exact (proj1 (proj2 (ttl_from_text None demo_env [1%nat] ".5"
                           ltac:(done) (H1 1%nat ltac:(lia)) eq_refl ltac:(done)
                           ltac:(by vm_compute)))).
  - exact (proj1 (proj2 (ttl_from_text None demo_env [0%nat] ".5"
                           ltac:(done) (H1 0%nat ltac:(lia)) eq_refl ltac:(done)
                           ltac:(by vm_compute)))).
  - exact (proj2 (proj2 (ttl_from_text None demo_env [3; 0]%nat "s"
                           ltac:(done) H2 eq_refl ltac:(done)
                           ltac:(by vm_compute)))).
Defined.

(** ** The client's events *)

(** X19. An ['error'] event of the client pauses the node without stopping
    its monitor: the flag goes down, the error is logged and shown, the
    timers stay as they are, and until a ['connect'] event arrives neither a
    trigger nor a tick issues any command, so the lease is neither renewed
    nor released.  The ['connect'] event puts the flag up again and touches
    nothing else: the status keeps showing 'connection error' until the next
    tick or trigger. *)
Theorem error_event_pauses
    (C : consts) (message : string) (msg : gmap string jsval) (nd : node)
    (ws : list world) :
  let nd1 := final_node (on_redis_error message nd) in
  let nd2 := final_node (on_redis_connect nd1) in
  (isConnected nd1 = false ∧ timers nd1 = timers nd ∧
   statusInterval nd1 = statusInterval nd ∧
   status nd1 = Some (Status "red" "ring" "connection error") ∧
   logs nd1 = logs nd ++ [(LError, "Redis error: " +:+ message)]) ∧
  (fst (run (on_input C msg nd1) ws) = [] ∧ fst (run (on_tick C nd1) ws) = [] ∧
   sent (final_node (snd (run (on_input C msg nd1) ws))) = sent nd) ∧
  (isConnected nd2 = true ∧ status nd2 = status nd1 ∧ timers nd2 = timers nd ∧
   redisClient nd2 = redisClient nd ∧ sent nd2 = sent nd).
Proof.
  intros nd1 nd2. subst nd1 nd2. split; [by repeat split |]. split; [| by repeat split].
  repeat split.
Qed.

(** ** Identities *)

Lemma input_atomic_holder
    (C : consts) (msg : gmap string jsval) (nd : node) (st : store) :
  redisClient nd = true → isConnected nd = true → 0 < lockTTL C →
  holder st (lockKey C) = Some (hostname C) →
  run_atomic (on_input C msg nd) st =
    (put st (lockKey C) (Entry (hostname C) (Some (now st + 1000 * lockTTL C))),
     Val tt (set_status (st_leader C) (add_sent (Some (tag_leader C msg), None) nd))).
Proof.
  intros Hcl Hc Httl Hh.
  remember (run_atomic (on_input C msg nd) st) as res eqn:E.
  unfold_handlers. unfold holder in *.
  run_cases E; subst res; simplify_eq/=; str_eqs; z_eqs; try lia;
    try (exfalso; congruence);
    repeat match goal with H : e_val _ = _ |- _ => rewrite H; clear H end; done.
Qed.

(** X20. The election tells nodes apart by hostname only.  Two nodes that
    share the lock key and the hostname both lead: once one of them has
    taken the lease, a trigger of the other within the TTL is sent on the
    leader output as well, and renews the lease. *)
Theorem shared_hostname_two_leaders
    (CA CB : consts) (ndA ndB : node) (msgA msgB : gmap string jsval)
    (st : store) (d : Z) :
  lockKey CA = lockKey CB → hostname CA = hostname CB →
  redisClient ndA = true → isConnected ndA = true →
  redisClient ndB = true → isConnected ndB = true →
  0 < lockTTL CA → 0 < lockTTL CB → d < 1000 * lockTTL CA →
  holder st (lockKey CA) = None →
  let rA := run_atomic (on_input CA msgA ndA) st in
  let rB := run_atomic (on_input CB msgB ndB) (elapse d (fst rA)) in
  newly_sent ndA (snd rA) = [(Some (tag_leader CA msgA), None)] ∧
  newly_sent ndB (snd rB) = [(Some (tag_leader CB msgB), None)] ∧
  holder (fst rB) (lockKey CA) = Some (hostname CA).
Proof.
  intros Hkey Hhost HclA HcA HclB HcB HtA HtB Hd Hfree rA rB. subst rA rB.
  rewrite input_atomic_free by done. cbn [fst snd].
  assert (Hheld : holder (elapse d (put st (lockKey CA)
                    (Entry (hostname CA) (Some (now st + 1000 * lockTTL CA)))))
                    (lockKey CB) = Some (hostname CB)).
  { rewrite <- Hkey, <- Hhost. unfold holder. rewrite live_elapse_put.
    case_match; z_eqs; [done | lia]. }
  rewrite input_atomic_holder by done. new_sent.
  split; [done |]. split; [done |].
  rewrite Hkey, Hhost. by apply holder_put_alive.
Qed.

Lemma shared_hostname_two_leaders_witness :
  newly_sent ready_node
    (snd (run_atomic (on_input demo_consts ∅ ready_node)
            (elapse 3000
               (fst (run_atomic (on_input demo_consts demo_msg online_node)
                       empty_store)))))
  = [(Some (tag_leader demo_consts ∅), None)].
Proof.
  exact (proj1 (proj2 (shared_hostname_two_leaders demo_consts demo_consts
                         online_node ready_node demo_msg ∅ empty_store 3000
                         eq_refl eq_refl eq_refl eq_refl eq_refl eq_refl
                         eq_refl eq_refl eq_refl eq_refl))).
Defined.
